(** * SineModelAnal: sinusoidal model analysis (essentia)

    A shallow embedding of [src/algorithms/synthesis/sinemodelanal.cpp]:
    the index/sort support functions, [SineModelAnal::configure],
    [SineModelAnal::sinusoidalTracking] and
    [SineModelAnal::phaseInterpolation].

    Conventions of the embedding.
    - [Real] (essentia's single-precision scalar) is modelled by the exact
      rationals [Q]: comparisons, subtraction, absolute value and the affine
      tolerance are the operations the code performs; rounding is not
      modelled.  Values are only ever copied between vectors, so the
      structural statements use Leibniz equality on [Q]; statements about
      computed values use [Qeq].
    - C++ [int] is [Z] (vector sizes are assumed to fit an [int]).
    - [std::vector] is [list]; an access, store or erase outside the bounds
      of a vector is undefined behaviour in C++ and is [None] here, threaded
      through the option monad.
    - [std::sort] leaves the order of elements with equal keys unspecified:
      general statements fix the sorted order only up to a permutation.
    - The collaborators created by the algorithm factory are external and
      are parameters of the functions that call them. *)

From Stdlib Require Import QArith Qabs Qround Ascii String.
From stdpp Require Import base option list strings sorting.
From Stdlib Require Import Permutation Sorted Lia.

Open Scope Z_scope.

(** ** Scalars *)

Definition Real := Q.

(** [x < y] on [Real], as a boolean. *)
Definition Qltb (x y : Real) : bool :=
  match (x ?= y)%Q with Lt => true | _ => false end.

(** [x == y] on [Real], as a boolean. *)
Definition Qeqb (x y : Real) : bool :=
  match (x ?= y)%Q with Eq => true | _ => false end.

(** Conversion of a floating value to [int]: truncation toward zero. *)
Definition Qtrunc (x : Real) : Z := Z.quot (Qnum x) (Z.pos (Qden x)).

(** ** Vectors with checked indices *)

Module Vec.

Definition size {A} (v : list A) : Z := Z.of_nat (length v).

Definition in_range {A} (v : list A) (i : Z) : bool :=
  (0 <=? i) && (i <? size v).

(** [v[i]] *)
Definition get {A} (v : list A) (i : Z) : option A :=
  if in_range v i then v !! Z.to_nat i else None.

(** [v[i] = x] *)
Definition set {A} (v : list A) (i : Z) (x : A) : option (list A) :=
  if in_range v i then Some (<[Z.to_nat i := x]> v) else None.

(** [v.erase(v.begin() + i)] *)
Definition erase {A} (v : list A) (i : Z) : option (list A) :=
  if in_range v i then Some (delete (Z.to_nat i) v) else None.

(** [v.push_back(x)] *)
Definition push_back {A} (v : list A) (x : A) : list A := v ++ [x].

End Vec.

(** ** Additional support functions *)

Definition mypair : Type := Z * Real.

Definition comparator (l r : mypair) : bool := Qltb l.2 r.2.

(** The order that [comparator] sorts into: non-decreasing second
    component. *)
Definition mag_le (a b : mypair) : Prop := (a.2 <= b.2)%Q.

(** [std::sort(first, last, comp)].  The standard leaves the relative order
    of equivalent elements unspecified; the model is the insertion sort that
    the library runs on short ranges, which keeps equivalent elements in
    their original order. *)
Fixpoint sort_insert {A} (comp : A → A → bool) (x : A) (l : list A) : list A :=
  match l with
  | [] => [x]
  | y :: l' => if comp x y then x :: y :: l' else y :: sort_insert comp x l'
  end.

Definition std_sort {A} (comp : A → A → bool) (l : list A) : list A :=
  foldl (λ acc x, sort_insert comp x acc) [] l.

(** It sorts the indexes of an input vector [v], and appends the sorted
    index vector to [idx]. *)
Definition sort_indexes (idx : list Z) (v : list Real) : list Z :=
  let pairs := imap (λ i x, (Z.of_nat i, x)) v in
  let pairs := std_sort comparator pairs in
  idx ++ pairs.*1.

(** Appends [v[idx[i]]] to [out] for every [i]. *)
Fixpoint copy_vector_from_indexes {A} (out v : list A) (idx : list Z)
  : option (list A) :=
  match idx with
  | [] => Some out
  | i :: idx' =>
      x ← Vec.get v i;
      copy_vector_from_indexes (Vec.push_back out x) v idx'
  end.

Definition copy_int_vector_from_indexes :=
  @copy_vector_from_indexes Z.

(** Erases position [idx[i]] of [v], for [i = 0, 1, ...] in turn; every erase
    acts on the vector left by the previous one. *)
Fixpoint erase_vector_from_indexes {A} (v : list A) (idx : list Z)
  : option (list A) :=
  match idx with
  | [] => Some v
  | i :: idx' =>
      v' ← Vec.erase v i;
      erase_vector_from_indexes v' idx'
  end.

(** ** Loops *)

(** [for (int i = lo; i < hi; ++i) body], for bounds that the body does not
    change. *)
Definition range (lo hi : Z) : list Z := seqZ lo (hi - lo).

Fixpoint for_each {St} (ixs : list Z) (body : Z → St → option St) (s : St)
  : option St :=
  match ixs with
  | [] => Some s
  | i :: ixs' => s' ← body i s; for_each ixs' body s'
  end.

(** The indexes [i0, i0+1, ...] of the elements of [v] that satisfy [p]:
    [for (i...) if (p(v[i])) out.push_back(i)]. *)
Fixpoint indexes_where {A} (p : A → bool) (i0 : Z) (v : list A) : list Z :=
  match v with
  | [] => []
  | x :: v' =>
      if p x then i0 :: indexes_where p (i0 + 1) v'
      else indexes_where p (i0 + 1) v'
  end.

(** ** Track continuation *)

(** Three index-aligned vectors: the (frequency, magnitude, phase) of the
    current peaks, or of the track slots. *)
Record Triple := mkTriple {
  freq : list Real;
  mag : list Real;
  phase : list Real
}.

(** [tf[dst] = pf[src]; tm[dst] = pm[src]; tp[dst] = pp[src];] *)
Definition store3 (tr : Triple) (dst : Z) (pk : Triple) (src : Z)
  : option Triple :=
  f ← Vec.get (freq pk) src; tf ← Vec.set (freq tr) dst f;
  m ← Vec.get (mag pk) src; tm ← Vec.set (mag tr) dst m;
  p ← Vec.get (phase pk) src; tp ← Vec.set (phase tr) dst p;
  Some (mkTriple tf tm tp).

(** [tf.push_back(pf[src]); tm.push_back(pm[src]); tp.push_back(pp[src]);] *)
Definition push3 (tr : Triple) (pk : Triple) (src : Z) : option Triple :=
  f ← Vec.get (freq pk) src;
  m ← Vec.get (mag pk) src;
  p ← Vec.get (phase pk) src;
  Some (mkTriple (Vec.push_back (freq tr) f) (Vec.push_back (mag tr) m)
                 (Vec.push_back (phase tr) p)).

(** The inner loop of the matching pass, for the peak of index [i]: scans
    the incoming tracks, with [freqDistance] starting at [1e10]. *)
Definition closest_track (pfreqt tfreq : list Real) (incomingTracks : list Z)
    (i : Z) : option (Real * Z) :=
  for_each (range 0 (Vec.size incomingTracks))
    (λ k '(freqDistance, closestIdx),
       pf ← Vec.get pfreqt i;
       t ← Vec.get incomingTracks k;
       tf ← Vec.get tfreq t;
       if Qltb freqDistance (Qabs (pf - tf))
       then Some (Qabs (pf - tf), k)
       else Some (freqDistance, closestIdx))
    ((10000000000 # 1)%Q, 0).

(** The loop over [magOrder] of the matching pass; the state is
    [(newTracks, incomingTracks)].  The source declares [incomingTracks] as a
    vector of [Real]; it only ever holds slot indexes, so it is a vector of
    integers here. *)
Fixpoint match_loop (freqDevOffset freqDevSlope : Real)
    (peakFrequencies tfreq : list Real) (magOrder : list Z)
    (newTracks incomingTracks : list Z) : option (list Z * list Z) :=
  match magOrder with
  | [] => Some (newTracks, incomingTracks)
  | i :: magOrder' =>
      if Vec.size incomingTracks =? 0 then Some (newTracks, incomingTracks)
      else
        '(freqDistance, closestIdx) ←
          closest_track peakFrequencies tfreq incomingTracks i;
        pf ← Vec.get peakFrequencies i;
        if Qltb freqDistance (freqDevOffset + freqDevSlope * pf)%Q then
          t ← Vec.get incomingTracks closestIdx;
          newTracks' ← Vec.set newTracks t i;
          incomingTracks' ← Vec.erase incomingTracks closestIdx;
          match_loop freqDevOffset freqDevSlope peakFrequencies tfreq
            magOrder' newTracks' incomingTracks'
        else
          match_loop freqDevOffset freqDevSlope peakFrequencies tfreq
            magOrder' newTracks incomingTracks
  end.

(** [for (int i=0; i < emptyt.size(); ++i) if (tfreq[i] == 0)
    emptyt.push_back(i);] the bound is the size of the vector that the body
    extends.  Every iteration reads [tfreq[i]], so [S (length tfreq)] steps
    of [fuel] always reach the exit or an access outside [tfreq]. *)
Fixpoint emptyt_loop (fuel : nat) (tfreq : list Real) (i : Z)
    (emptyt : list Z) : option (list Z) :=
  match fuel with
  | O => None
  | S fuel' =>
      if i <? Vec.size emptyt then
        f ← Vec.get tfreq i;
        emptyt_loop fuel' tfreq (i + 1)
          (if Qeqb f 0%Q then Vec.push_back emptyt i else emptyt)
      else Some emptyt
  end.

(** [SineModelAnal::sinusoidalTracking].  The vectors passed by reference
    are returned: the current peaks (which the function erases from) and the
    output track slots. *)
Definition sinusoidalTracking
    (peakMags peakFrequencies peakPhases tfreq : list Real)
    (freqDevOffset freqDevSlope : Real)
    (tfreqn tmagn tphasen : list Real) : option (Triple * Triple) :=
  let freqDevOffset : Real := 20%Q in
  let freqDevSlope : Real := (1 # 100)%Q in
  (* init arrays *)
  let tfreqn := resize (length tfreq) (0%Q : Real) tfreqn in
  let tmagn := resize (length tfreq) (0%Q : Real) tmagn in
  let tphasen := resize (length tfreq) (0%Q : Real) tphasen in
  let pindexes := indexes_where (λ f, Qltb 0%Q f) 0 peakFrequencies in
  let incomingTracks := indexes_where (λ f, Qltb 0%Q f) 0 tfreq in
  let newTracks := replicate (length tfreq) (-1) in
  let magOrder := sort_indexes [] peakMags in
  (* continue incoming tracks *)
  '(newTracks, incomingTracks) ←
    (if 0 <? Vec.size incomingTracks then
       match_loop freqDevOffset freqDevSlope peakFrequencies tfreq
         magOrder newTracks incomingTracks
     else Some (newTracks, incomingTracks));
  let indext := indexes_where (λ t, negb (t =? -1)) 0 newTracks in
  '(pk, tr) ←
    (let pk := mkTriple peakFrequencies peakMags peakPhases in
     let tr := mkTriple tfreqn tmagn tphasen in
     if 0 <? Vec.size indext then
       indexp ← copy_int_vector_from_indexes [] newTracks indext;
       tr ← for_each (range 0 (Vec.size indexp))
              (λ i tr,
                 d ← Vec.get indext i; s ← Vec.get indexp i;
                 store3 tr d pk s)
              tr;
       (* delete used peaks *)
       pfreqt ← erase_vector_from_indexes (freq pk) indexp;
       pmagt ← erase_vector_from_indexes (mag pk) indexp;
       pphaset ← erase_vector_from_indexes (phase pk) indexp;
       Some (mkTriple pfreqt pmagt pphaset, tr)
     else Some (pk, tr));
  (* create new tracks for non used peaks *)
  emptyt ← emptyt_loop (S (length tfreq)) tfreq 0 [];
  let peaksleft := sort_indexes [] (mag pk) in
  tr ←
    (if (0 <? Vec.size peaksleft)
        && (Vec.size peaksleft <=? Vec.size emptyt) then
       (* fill empty tracks *)
       for_each (range 0 (Vec.size peaksleft))
         (λ i tr, d ← Vec.get emptyt i; store3 tr d pk i)
         tr
     else if (0 <? Vec.size peaksleft)
             && (Vec.size emptyt <? Vec.size peaksleft) then
       (* add more tracks if necessary *)
       tr ← for_each (range 0 (Vec.size emptyt))
              (λ i tr, s ← Vec.get peaksleft i; store3 tr i pk s)
              tr;
       for_each (range (Vec.size emptyt) (Vec.size peaksleft))
         (λ i tr, s ← Vec.get peaksleft i; push3 tr pk s)
         tr
     else Some tr);
  Some (pk, tr).

(** ** Phase interpolation *)

(** [Real(M_PI)]: the single-precision value nearest to pi,
    [0x40490FDB = 13176795 * 2^-22]. *)
Definition Real_M_PI : Real := (13176795 # 4194304)%Q.

(** [pos = fftSize * (f / (sampleRate/2)); idx = int(0.5 + pos);
    a = pos - idx;] *)
Definition bin_pos (fftSize : Z) (sampleRate f : Real) : Real :=
  (inject_Z fftSize * (f / (sampleRate / 2)))%Q.

Definition bin_idx (fftSize : Z) (sampleRate f : Real) : Z :=
  Qtrunc ((1 # 2) + bin_pos fftSize sampleRate f)%Q.

Definition bin_a (fftSize : Z) (sampleRate f : Real) : Real :=
  (bin_pos fftSize sampleRate f
   - inject_Z (bin_idx fftSize sampleRate f))%Q.

(** The bin read next to [idx]: [idx-1] when [a < 0 && idx > 0]; else
    [idx+1] when [idx < fftSize-1]; else none. *)
Definition neighbour (fftSize idx : Z) (a : Real) : option Z :=
  if Qltb a 0%Q && (0 <? idx) then Some (idx - 1)
  else if idx <? fftSize - 1 then Some (idx + 1)
  else None.

(** The indexes of [fftphase] that the body of the loop reads for a peak of
    frequency [f]. *)
Definition phase_accesses (fftSize : Z) (sampleRate f : Real) : list Z :=
  let idx := bin_idx fftSize sampleRate f in
  match neighbour fftSize idx (bin_a fftSize sampleRate f) with
  | Some n => [n; idx]
  | None => [idx]
  end.

(** The body of the loop of [phaseInterpolation], for one peak: the two
    guarded branches have the same shape,
    [(abs(fftphase[n] - fftphase[idx]) > Real(M_PI))
       ? a * fftphase[n] + (1.0 - a) * fftphase[idx] : fftphase[idx]]
    for the neighbour [n]; the last one is [fftphase[idx]]. *)
Definition phase_of_peak (fftphase : list Real) (sampleRate f : Real)
  : option Real :=
  let fftSize := Vec.size fftphase in
  let idx := bin_idx fftSize sampleRate f in
  let a := bin_a fftSize sampleRate f in
  match neighbour fftSize idx a with
  | Some n =>
      pn ← Vec.get fftphase n;
      p ← Vec.get fftphase idx;
      if Qltb Real_M_PI (Qabs (pn - p))
      then Some (a * pn + (1 - a) * p)%Q
      else Some p
  | None => Vec.get fftphase idx
  end.

(** [SineModelAnal::phaseInterpolation]; [sampleRate] is the configured
    parameter. *)
Definition phaseInterpolation (sampleRate : Real)
    (fftphase peakFrequencies peakPhases : list Real) : option (list Real) :=
  let N := Vec.size peakFrequencies in
  let peakPhases := resize (Z.to_nat N) (0%Q : Real) peakPhases in
  for_each (range 0 N)
    (λ i peakPhases,
       f ← Vec.get peakFrequencies i;
       v ← phase_of_peak fftphase sampleRate f;
       Vec.set peakPhases i v)
    peakPhases.

(** ** Configuration *)

(** The declared parameters of the algorithm. *)
Record Parameters := mkParameters {
  sampleRate : Real;
  maxPeaks : Z;
  maxFrequency : Real;
  minFrequency : Real;
  magnitudeThreshold : Real;
  orderBy : string
}.

(** The named arguments handed to the [configure] of the peak detection
    collaborator; also what the collaborator holds as its configuration. *)
Record PeakDetection := mkPeakDetection {
  pd_interpolate : bool;
  pd_range : Real;
  pd_maxPeaks : Z;
  pd_minPosition : Real;
  pd_maxPosition : Real;
  pd_threshold : Real;
  pd_orderBy : string
}.

Inductive Outcome :=
  | Returned
  | EssentiaException (msg : string).

Definition tolower (c : ascii) : ascii :=
  let n := nat_of_ascii c in
  if (65 <=? n)%nat && (n <=? 90)%nat then ascii_of_nat (n + 32) else c.

(** Modelled from the spec: [Parameter::toLower], which is not part of these
    sources; the ordering mode is compared case-insensitively, so the string
    value with every ASCII upper-case letter replaced by its lower-case
    one. *)
Fixpoint toLower (s : string) : string :=
  match s with
  | EmptyString => EmptyString
  | String c s' => String (tolower c) (toLower s')
  end.

Section Configure.

(** [_peakDetect->configure(...)].  The collaborator is external to these
    sources: given the named arguments and the configuration it holds, its
    [configure] either raises, and the exception propagates to the caller of
    [SineModelAnal::configure], or returns; the second component is the
    configuration it holds afterwards. *)
Variable peakDetect_configure :
  PeakDetection → PeakDetection → Outcome * PeakDetection.

(** [SineModelAnal::configure]: the outcome and the state of [_peakDetect]
    after the call. *)
Definition configure (p : Parameters) (_peakDetect : PeakDetection)
  : Outcome * PeakDetection :=
  let orderBy := toLower (orderBy p) in
  let mapped :=
    if String.eqb orderBy "magnitude" then inl "amplitude"%string
    else if String.eqb orderBy "frequency" then inl "position"%string
    else inr (EssentiaException
                ("Unsupported ordering type: '" +:+ orderBy +:+ "'")) in
  match mapped with
  | inr exn => (exn, _peakDetect)
  | inl orderBy =>
      peakDetect_configure
        (mkPeakDetection true (sampleRate p / 2)%Q (maxPeaks p)
           (minFrequency p) (maxFrequency p) (magnitudeThreshold p) orderBy)
        _peakDetect
  end.

End Configure.

(** Modelled from the spec: a Peak Picker whose [configure] rejects a
    malformed range ("Peak Picker input-domain violations (e.g. malformed
    range) propagate as configuration errors"), here a maximum position below
    the minimum position, and keeps its previous configuration when it does;
    the collaborator itself is not part of these sources. *)
Definition range_checking_peakDetect (args held : PeakDetection)
  : Outcome * PeakDetection :=
  if Qltb (pd_maxPosition args) (pd_minPosition args)
  then (EssentiaException "malformed range", held)
  else (Returned, args).

(** [s] occurs in [msg]. *)
Definition contains (msg s : string) : Prop :=
  ∃ pre post : string, msg = pre +:+ s +:+ post.

(** The character [c] occurs in [s]. *)
Fixpoint occurs (c : ascii) (s : string) : bool :=
  match s with
  | EmptyString => false
  | String c' s' => Ascii.eqb c c' || occurs c s'
  end.

(** A state of the collaborator before [configure] is called. *)
Definition default_peakDetect : PeakDetection :=
  mkPeakDetection true 1%Q 100 0%Q 0%Q (-1000000)%Q "position".

(** ** Frame analysis *)

Section Compute.

(** The two collaborators of [compute], created by the algorithm factory and
    external to these sources: the conversion of the complex spectrum to
    (magnitude, phase), and the peak detection, which maps its configuration
    and the magnitudes to (positions, amplitudes).  [None] is an exception
    raised by the collaborator, which [compute] lets through. *)
Variable cartesianToPolar : list (Real * Real) → option (list Real * list Real).
Variable peakDetection :
  PeakDetection → list Real → option (list Real * list Real).


End Compute.

(** * Properties *)

(** ** Vectors and loops *)

Ltac bind_inv H :=
  cbv beta in H;
  repeat match type of H with
  | (_ ≫= _) = Some _ =>
      let x := fresh "x" in
      let Hx := fresh "Hx" in
      apply bind_Some in H as (x & Hx & H)
  end.

Lemma Vec_get_elem_of {A} (v : list A) i x : Vec.get v i = Some x → x ∈ v.
Proof.
  unfold Vec.get. destruct (Vec.in_range v i); [|done].
  intros H. by eapply list_elem_of_lookup_2.
Qed.

Lemma Vec_get_in_range {A} (v : list A) i :
  is_Some (Vec.get v i) ↔ 0 ≤ i < Vec.size v.
Proof.
  unfold Vec.get, Vec.in_range, Vec.size. split.
  - intros [x Hx].
    destruct (0 <=? i) eqn:H0, (i <? Z.of_nat (length v)) eqn:H1;
      simpl in Hx; try done.
    apply Z.leb_le in H0. apply Z.ltb_lt in H1. lia.
  - intros [H0 H1].
    pose proof H0 as H0'. pose proof H1 as H1'.
    apply Z.leb_le in H0 as ->. apply Z.ltb_lt in H1 as ->. simpl.
    apply lookup_lt_is_Some. lia.
Qed.

Lemma Vec_get_of_lookup {A} (v : list A) t x :
  0 ≤ t → v !! Z.to_nat t = Some x → Vec.get v t = Some x.
Proof.
  intros Ht Hx. unfold Vec.get, Vec.in_range, Vec.size.
  pose proof (lookup_lt_Some _ _ _ Hx).
  replace (0 <=? t) with true by (symmetry; apply Z.leb_le; lia).
  replace (t <? Z.of_nat (length v)) with true
    by (symmetry; apply Z.ltb_lt; lia).
  done.
Qed.

Lemma Vec_get_range {A} (v : list A) k :
  k ∈ range 0 (Vec.size v) → ∃ x, Vec.get v k = Some x ∧ x ∈ v.
Proof.
  unfold range. rewrite elem_of_seqZ. intros Hk.
  destruct (proj2 (Vec_get_in_range v k)) as [x Hx]; [lia|].
  exists x. split; [done|]. by eapply Vec_get_elem_of.
Qed.

Lemma Vec_get_app_r {A} (l1 l2 : list A) x :
  Vec.get (l1 ++ x :: l2) (Vec.size l1) = Some x.
Proof.
  unfold Vec.get, Vec.in_range, Vec.size. rewrite length_app. simpl.
  replace (0 <=? Z.of_nat (length l1)) with true
    by (symmetry; apply Z.leb_le; lia).
  replace (Z.of_nat (length l1) <? Z.of_nat (length l1 + S (length l2))%nat)
    with true by (symmetry; apply Z.ltb_lt; lia).
  simpl. rewrite Nat2Z.id. by rewrite list_lookup_middle.
Qed.

Lemma Vec_set_app_r {A} (l1 l2 : list A) x y :
  Vec.set (l1 ++ x :: l2) (Vec.size l1) y = Some (l1 ++ y :: l2).
Proof.
  unfold Vec.set, Vec.in_range, Vec.size. rewrite length_app. simpl.
  replace (0 <=? Z.of_nat (length l1)) with true
    by (symmetry; apply Z.leb_le; lia).
  replace (Z.of_nat (length l1) <? Z.of_nat (length l1 + S (length l2))%nat)
    with true by (symmetry; apply Z.ltb_lt; lia).
  simpl. rewrite Nat2Z.id. f_equal.
  rewrite insert_app_r_alt by lia. by rewrite Nat.sub_diag.
Qed.

Lemma Vec_set_length {A} (v v' : list A) i x :
  Vec.set v i x = Some v' → length v' = length v.
Proof.
  unfold Vec.set. destruct (Vec.in_range v i); [|done].
  intros [= <-]. apply length_insert.
Qed.

Lemma Vec_set_elem_of {A} (v v' : list A) i x y :
  Vec.set v i x = Some v' → y ∈ v' → y = x ∨ y ∈ v.
Proof.
  unfold Vec.set. destruct (Vec.in_range v i); [|done].
  intros [= <-] Hy.
  apply list_elem_of_lookup in Hy as [j Hj].
  destruct (decide (Z.to_nat i = j)) as [Heq|Hne].
  - subst j. destruct (decide (Z.to_nat i < length v)%nat) as [Hlt|Hge].
    + rewrite list_lookup_insert_eq in Hj by done. left. congruence.
    + rewrite list_insert_ge in Hj by lia. right.
      by eapply list_elem_of_lookup_2.
  - rewrite list_lookup_insert_ne in Hj by done. right.
    by eapply list_elem_of_lookup_2.
Qed.

Lemma Vec_erase_elem_of {A} (v v' : list A) i y :
  Vec.erase v i = Some v' → y ∈ v' → y ∈ v.
Proof.
  unfold Vec.erase. destruct (Vec.in_range v i); [|done].
  intros [= <-] Hy. by eapply list_elem_of_delete_inv.
Qed.

Lemma erase_vector_from_indexes_elem_of {A} (idx : list Z) (v v' : list A) y :
  erase_vector_from_indexes v idx = Some v' → y ∈ v' → y ∈ v.
Proof.
  revert v. induction idx as [|i idx IH]; intros v H Hy; simpl in H.
  - by injection H as <-.
  - bind_inv H. eapply Vec_erase_elem_of; [done|]. by eapply IH.
Qed.

(** A property kept by every iteration holds when the loop ends. *)
Lemma for_each_inv {St} (P : St → Prop) (body : Z → St → option St) ixs s s' :
  (∀ i s1 s2, P s1 → body i s1 = Some s2 → P s2) →
  P s → for_each ixs body s = Some s' → P s'.
Proof.
  intros Hbody. revert s. induction ixs as [|i ixs IH]; intros s Hs H.
  - by injection H as <-.
  - simpl in H. bind_inv H. eapply IH; [|done]. by eapply Hbody.
Qed.

Lemma indexes_where_elem {A} (p : A → bool) (v : list A) i0 t :
  t ∈ indexes_where p i0 v →
  ∃ x, v !! Z.to_nat (t - i0) = Some x ∧ i0 ≤ t ∧ p x = true.
Proof.
  revert i0. induction v as [|y v IH]; intros i0 Ht; simpl in Ht.
  - by apply elem_of_nil in Ht.
  - assert (t ∈ indexes_where p (i0 + 1) v →
            ∃ x, (y :: v) !! Z.to_nat (t - i0) = Some x ∧ i0 ≤ t ∧ p x = true)
      as Hrec.
    { intros (x & Hx & Hle & Hp)%IH. exists x. split; [|split; [lia|done]].
      replace (Z.to_nat (t - i0)) with (S (Z.to_nat (t - (i0 + 1)))) by lia.
      done. }
    destruct (p y) eqn:Hy; [|by apply Hrec].
    apply elem_of_cons in Ht as [->|Ht]; [|by apply Hrec].
    exists y. rewrite Z.sub_diag. split; [done|]. split; [lia|done].
Qed.

Lemma indexes_where_get {A} (p : A → bool) (v : list A) t :
  t ∈ indexes_where p 0 v → ∃ x, Vec.get v t = Some x ∧ p x = true.
Proof.
  intros (x & Hx & Hle & Hp)%indexes_where_elem. exists x. split; [|done].
  rewrite Z.sub_0_r in Hx. by apply Vec_get_of_lookup.
Qed.

Lemma indexes_where_none {A} (p : A → bool) (v : list A) i0 :
  Forall (λ x, p x = false) v → indexes_where p i0 v = [].
Proof.
  intros H. revert i0. induction H as [|x v Hx _ IH]; intros i0; simpl; [done|].
  by rewrite Hx, IH.
Qed.

Lemma mapM_cons_Some {A B} (f : A → option B) x l ys :
  mapM f (x :: l) = Some ys →
  ∃ y ys', f x = Some y ∧ mapM f l = Some ys' ∧ ys = y :: ys'.
Proof.
  intros H%mapM_Some_1. apply Forall2_cons_inv_l in H as (y & ys' & Hy & Hl & ->).
  exists y, ys'. split; [done|]. split; [|done]. by apply mapM_Some_2.
Qed.

(** ** Scalars *)

Lemma Qltb_lt x y : Qltb x y = true ↔ (x < y)%Q.
Proof.
  unfold Qltb. rewrite Qlt_alt. destruct (x ?= y)%Q; split; congruence.
Qed.

Lemma Qltb_comp x x' y y' : (x == x')%Q → (y == y')%Q → Qltb x y = Qltb x' y'.
Proof. unfold Qltb. by intros -> ->. Qed.

Lemma Qtrunc_nonneg x : (0 <= x)%Q → Qtrunc x = Qfloor x.
Proof.
  destruct x as [n d]. unfold Qle, Qtrunc, Qfloor. simpl. intros Hn.
  apply Z.quot_div_nonneg; lia.
Qed.

Lemma Qfloor_unique x k :
  (inject_Z k <= x)%Q → (x < inject_Z (k + 1))%Q → Qfloor x = k.
Proof.
  intros Hle Hlt.
  pose proof (Qfloor_le x) as H1. pose proof (Qlt_floor x) as H2.
  assert (inject_Z k < inject_Z (Qfloor x + 1))%Q as Ha
    by (eapply Qle_lt_trans; eassumption).
  assert (inject_Z (Qfloor x) < inject_Z (k + 1))%Q as Hb
    by (eapply Qle_lt_trans; eassumption).
  rewrite <- Zlt_Qlt in Ha, Hb. lia.
Qed.

(** ** Index sort: a permutation of the indexes, in ascending magnitude *)

Lemma sort_insert_Permutation {A} (comp : A → A → bool) x l :
  sort_insert comp x l ≡ₚ x :: l.
Proof.
  induction l as [|y l IH]; simpl; [done|].
  destruct (comp x y); [done|]. rewrite IH. apply Permutation_swap.
Qed.

Lemma std_sort_Permutation {A} (comp : A → A → bool) l : std_sort comp l ≡ₚ l.
Proof.
  unfold std_sort.
  enough (∀ acc, foldl (λ acc x, sort_insert comp x acc) acc l ≡ₚ acc ++ l)
    as H by apply (H []).
  induction l as [|x l IH]; intros acc; simpl.
  - by rewrite app_nil_r.
  - rewrite IH, sort_insert_Permutation. simpl. apply Permutation_middle.
Qed.

Lemma sort_insert_sorted x l :
  StronglySorted mag_le l → StronglySorted mag_le (sort_insert comparator x l).
Proof.
  induction 1 as [|y l Hl IH Hy]; simpl.
  - repeat constructor.
  - unfold comparator at 1. destruct (Qltb x.2 y.2) eqn:Hc.
    + apply Qltb_lt in Hc. constructor; [by constructor|].
      constructor; [by apply Qlt_le_weak|].
      eapply Forall_impl; [exact Hy|]. intros z Hz. unfold mag_le in *.
      eapply Qle_trans; [|exact Hz]. by apply Qlt_le_weak.
    + constructor; [done|].
      rewrite sort_insert_Permutation. constructor; [|done].
      unfold mag_le. apply Qnot_lt_le. intros Hlt%Qltb_lt. congruence.
Qed.

Lemma std_sort_sorted l : StronglySorted mag_le (std_sort comparator l).
Proof.
  unfold std_sort.
  enough (∀ acc, StronglySorted mag_le acc →
            StronglySorted mag_le
              (foldl (λ acc x, sort_insert comparator x acc) acc l))
    as H by (apply H; constructor).
  induction l as [|x l IH]; intros acc Hacc; simpl; [done|].
  apply IH. by apply sort_insert_sorted.
Qed.

Lemma StronglySorted_lookup {A} (R : A → A → Prop) l j1 j2 x1 x2 :
  StronglySorted R l → (j1 < j2)%nat →
  l !! j1 = Some x1 → l !! j2 = Some x2 → R x1 x2.
Proof.
  intros Hs Hlt H1 H2. rewrite <- (take_drop j2 l) in Hs.
  eapply StronglySorted_app_1_elem_of; [exact Hs| |].
  - apply list_elem_of_lookup. exists j1. by rewrite lookup_take_lt.
  - apply list_elem_of_lookup. exists 0%nat. rewrite lookup_drop.
    by rewrite Nat.add_0_r.
Qed.

Lemma sort_indexes_pairs (v : list Real) i m :
  (i, m) ∈ std_sort comparator (imap (λ i x, (Z.of_nat i, x)) v) →
  Vec.get v i = Some m.
Proof.
  rewrite std_sort_Permutation.
  intros (k & y & [= -> ->] & Hk)%elem_of_lookup_imap.
  unfold Vec.get, Vec.in_range, Vec.size.
  pose proof (lookup_lt_Some _ _ _ Hk).
  replace (0 <=? Z.of_nat k) with true by (symmetry; apply Z.leb_le; lia).
  replace (Z.of_nat k <? Z.of_nat (length v)) with true
    by (symmetry; apply Z.ltb_lt; lia).
  simpl. by rewrite Nat2Z.id.
Qed.

(** The index vector appended by [sort_indexes] lists the indexes of [v] in
    order of non-decreasing value: an index listed earlier never has the
    larger value. *)
Lemma sort_indexes_ascending (v : list Real) j1 j2 i1 i2 :
  (j1 < j2)%nat →
  sort_indexes [] v !! j1 = Some i1 →
  sort_indexes [] v !! j2 = Some i2 →
  ∃ m1 m2, Vec.get v i1 = Some m1 ∧ Vec.get v i2 = Some m2 ∧ (m1 <= m2)%Q.
Proof.
  unfold sort_indexes. cbv zeta. rewrite app_nil_l.
  intros Hlt ([k1 m1] & [= ->] & H1)%list_lookup_fmap_Some
             ([k2 m2] & [= ->] & H2)%list_lookup_fmap_Some.
  exists m1, m2. split; [|split].
  - apply sort_indexes_pairs. by eapply list_elem_of_lookup_2.
  - apply sort_indexes_pairs. by eapply list_elem_of_lookup_2.
  - exact (StronglySorted_lookup mag_le _ _ _ _ _
             (std_sort_sorted _) Hlt H1 H2).
Qed.

Lemma sort_indexes_in_range (v w : list Real) :
  length w = length v →
  Forall (λ i, is_Some (Vec.get w i)) (sort_indexes [] v).
Proof.
  intros Hlen. apply Forall_forall. intros i Hi.
  unfold sort_indexes in Hi. cbv zeta in Hi. rewrite app_nil_l in Hi.
  apply list_elem_of_fmap in Hi as ([k m] & -> & Hkm). simpl.
  apply sort_indexes_pairs in Hkm.
  apply Vec_get_in_range. unfold Vec.size. rewrite Hlen.
  apply (Vec_get_in_range v). eauto.
Qed.

(** ** Track continuation: what every store into the track slots keeps *)

Section TrackingInvariant.

(** The peak frequencies supplied to the call. *)
Variable F : list Real.

(** A property of the track slots kept by the two ways the function
    writes into them, from peaks whose frequencies are among [F]. *)
Variable P : Triple → Prop.

Hypothesis P_store : ∀ tr d pk s tr',
  (∀ f, f ∈ freq pk → f ∈ F) → P tr → store3 tr d pk s = Some tr' → P tr'.

Hypothesis P_push : ∀ tr pk s tr',
  (∀ f, f ∈ freq pk → f ∈ F) → P tr → push3 tr pk s = Some tr' → P tr'.

Lemma sinusoidalTracking_inv peakMags peakPhases tfreq o s tfn tmn tpn pk tr :
  P (mkTriple (resize (length tfreq) 0%Q tfn)
              (resize (length tfreq) 0%Q tmn)
              (resize (length tfreq) 0%Q tpn)) →
  sinusoidalTracking peakMags F peakPhases tfreq o s tfn tmn tpn
    = Some (pk, tr) →
  P tr.
Proof.
  intros Hinit H. unfold sinusoidalTracking in H. cbv zeta in H.
  apply bind_Some in H as ([nt it] & _ & H).
  apply bind_Some in H as ([pk1 tr1] & H1 & H).
  apply bind_Some in H as (emptyt & _ & H).
  apply bind_Some in H as (tr2 & H2 & H).
  injection H as <- <-.
  assert ((∀ f, f ∈ freq pk1 → f ∈ F) ∧ P tr1) as [Hpk Htr].
  { destruct (0 <? Vec.size _) in H1.
    - bind_inv H1. injection H1 as <- <-. split.
      + simpl. intros f Hf.
        by eapply erase_vector_from_indexes_elem_of.
      + eapply for_each_inv; [|exact Hinit|done].
        intros i s1 s2 Hs1 Hb. bind_inv Hb.
        refine (P_store _ _ _ _ _ _ Hs1 Hb). done.
    - injection H1 as <- <-. done. }
  destruct (_ && _) in H2.
  - eapply for_each_inv; [|exact Htr|done].
    intros i s1 s2 Hs1 Hb. bind_inv Hb.
    exact (P_store _ _ _ _ _ Hpk Hs1 Hb).
  - destruct (_ && _) in H2; [|by injection H2 as <-].
    bind_inv H2.
    eapply for_each_inv; [| |done].
    + intros i s1 s2 Hs1 Hb. bind_inv Hb.
      exact (P_push _ _ _ _ Hpk Hs1 Hb).
    + eapply for_each_inv; [|exact Htr|done].
      intros i s1 s2 Hs1 Hb. bind_inv Hb.
      exact (P_store _ _ _ _ _ Hpk Hs1 Hb).
Qed.

End TrackingInvariant.

Lemma store3_length tr d pk s tr' :
  store3 tr d pk s = Some tr' →
  length (freq tr') = length (freq tr) ∧ length (mag tr') = length (mag tr)
  ∧ length (phase tr') = length (phase tr).
Proof.
  unfold store3. intros H. bind_inv H. injection H as <-. simpl.
  repeat split; by eapply Vec_set_length.
Qed.

Lemma push3_length tr pk s tr' :
  push3 tr pk s = Some tr' →
  length (freq tr') = S (length (freq tr))
  ∧ length (mag tr') = S (length (mag tr))
  ∧ length (phase tr') = S (length (phase tr)).
Proof.
  unfold push3, Vec.push_back. intros H. bind_inv H. injection H as <-. simpl.
  rewrite !length_app. simpl. lia.
Qed.

Lemma store3_freq tr d pk s tr' f :
  store3 tr d pk s = Some tr' → f ∈ freq tr' → f ∈ freq pk ∨ f ∈ freq tr.
Proof.
  unfold store3. intros H Hf. bind_inv H. injection H as <-. simpl in Hf.
  eapply Vec_set_elem_of in Hf as [->|Hf]; [| |done]; [|by right].
  left. by eapply Vec_get_elem_of.
Qed.

Lemma push3_freq tr pk s tr' f :
  push3 tr pk s = Some tr' → f ∈ freq tr' → f ∈ freq pk ∨ f ∈ freq tr.
Proof.
  unfold push3, Vec.push_back. intros H Hf. bind_inv H. injection H as <-.
  simpl in Hf. apply elem_of_app in Hf as [Hf|Hf]; [by right|].
  apply list_elem_of_singleton in Hf as ->. left. by eapply Vec_get_elem_of.
Qed.

(** ** Track continuation when no tolerance exceeds 1e10 *)

(** The loop that collects the empty slots never runs: its bound is the
    size of the vector it would fill. *)
Lemma emptyt_always_empty tfreq :
  emptyt_loop (S (length tfreq)) tfreq 0 [] = Some [].
Proof. reflexivity. Qed.

Lemma for_each_total {St} (P : St → Prop) ixs
    (body : Z → St → option St) (s : St) :
  P s →
  (∀ i s1, i ∈ ixs → P s1 → ∃ s2, body i s1 = Some s2 ∧ P s2) →
  ∃ s', for_each ixs body s = Some s' ∧ P s'.
Proof.
  revert s. induction ixs as [|i ixs IH]; intros s Hs Hbody; simpl; [eauto|].
  destruct (Hbody i s) as (s2 & -> & Hs2); [left|done|]. simpl.
  apply IH; [done|]. intros j s1 Hj. apply Hbody. by right.
Qed.

Section OutOfReach.

(** The peak frequencies and the incoming track frequencies of the call. *)
Variables F tfreq : list Real.

(** No peak has a tolerance above [1e10]. *)
Hypothesis tolerances :
  Forall (λ pf, (20 + (1 # 100) * pf <= 10000000000 # 1)%Q) F.

(** The distance found by the search is never below its initial value
    [1e10]: the loop only ever replaces it by a larger one. *)
Lemma closest_track_at_least incomingTracks i pf :
  Vec.get F i = Some pf →
  Forall (λ t, is_Some (Vec.get tfreq t)) incomingTracks →
  ∃ fd c, closest_track F tfreq incomingTracks i = Some (fd, c)
          ∧ (10000000000 # 1 <= fd)%Q.
Proof.
  intros Hpf Hit. unfold closest_track.
  destruct (for_each_total
              (λ st : Real * Z, (10000000000 # 1 <= st.1)%Q)
              (range 0 (Vec.size incomingTracks))
              (λ k '(freqDistance, closestIdx),
                 pf ← Vec.get F i;
                 t ← Vec.get incomingTracks k;
                 tf ← Vec.get tfreq t;
                 if Qltb freqDistance (Qabs (pf - tf))
                 then Some (Qabs (pf - tf), k)
                 else Some (freqDistance, closestIdx))
              ((10000000000 # 1)%Q, 0)) as ([fd c] & Hres & Hfd).
  - simpl. apply Qle_refl.
  - intros k [fd c] (t & Ht & Hin)%Vec_get_range Hfd. simpl in Hfd.
    rewrite Hpf, Ht. simpl.
    rewrite Forall_forall in Hit. destruct (Hit t Hin) as [tf ->]. simpl.
    destruct (Qltb _ _) eqn:Hc; eexists; (split; [done|]); simpl; [|done].
    apply Qltb_lt in Hc. eapply Qle_trans; [exact Hfd|].
    by apply Qlt_le_weak.
  - exists fd, c. by split.
Qed.

(** The matching pass assigns no peak to any track. *)
Lemma match_loop_assigns_nothing magOrder newTracks incomingTracks :
  Forall (λ i, is_Some (Vec.get F i)) magOrder →
  Forall (λ t, is_Some (Vec.get tfreq t)) incomingTracks →
  match_loop 20%Q (1 # 100)%Q F tfreq magOrder newTracks incomingTracks
  = Some (newTracks, incomingTracks).
Proof.
  intros Hmag Hit. induction Hmag as [|i magOrder [pf Hpf] _ IH]; simpl; [done|].
  destruct (_ =? 0); [done|].
  destruct (closest_track_at_least _ _ _ Hpf Hit) as (fd & c & -> & Hfd).
  simpl. rewrite Hpf. simpl.
  destruct (Qltb _ _) eqn:Hc; [|done].
  apply Qltb_lt in Hc. exfalso. revert Hc. apply Qle_not_lt.
  eapply Qle_trans; [|exact Hfd].
  rewrite Forall_forall in tolerances. apply tolerances.
  by eapply Vec_get_elem_of.
Qed.

End OutOfReach.

Lemma push_loop pk (pre rest : list Z) tr fs ms ps :
  mapM (Vec.get (freq pk)) rest = Some fs →
  mapM (Vec.get (mag pk)) rest = Some ms →
  mapM (Vec.get (phase pk)) rest = Some ps →
  for_each (seqZ (Vec.size pre) (Vec.size rest))
    (λ i tr, s ← Vec.get (pre ++ rest) i; push3 tr pk s) tr
  = Some (mkTriple (freq tr ++ fs) (mag tr ++ ms) (phase tr ++ ps)).
Proof.
  revert pre tr fs ms ps.
  induction rest as [|s rest IH]; intros pre tr fs ms ps Hf Hm Hp.
  - injection Hf as <-. injection Hm as <-. injection Hp as <-.
    destruct tr. simpl. by rewrite !app_nil_r.
  - apply mapM_cons_Some in Hf as (f0 & fs' & Hf0 & Hfs & ->).
    apply mapM_cons_Some in Hm as (m0 & ms' & Hm0 & Hms & ->).
    apply mapM_cons_Some in Hp as (p0 & ps' & Hp0 & Hps & ->).
    unfold Vec.size at 2. rewrite seqZ_cons by (simpl; lia).
    cbn [for_each]. rewrite Vec_get_app_r. cbn [mbind option_bind].
    assert (push3 tr pk s
            = Some (mkTriple (freq tr ++ [f0]) (mag tr ++ [m0])
                             (phase tr ++ [p0]))) as ->
      by (unfold push3; by rewrite Hf0, Hm0, Hp0).
    cbn [mbind option_bind].
    specialize (IH (pre ++ [s])
                  (mkTriple (freq tr ++ [f0]) (mag tr ++ [m0])
                            (phase tr ++ [p0]))
                  _ _ _ Hfs Hms Hps).
    rewrite <- (assoc_L (++)) in IH. simpl in IH.
    replace (Z.succ (Vec.size pre)) with (Vec.size (pre ++ [s]))
      by (unfold Vec.size; rewrite length_app; simpl; lia).
    replace (Z.pred (Z.of_nat (length (s :: rest)))) with (Vec.size rest)
      by (unfold Vec.size; simpl; lia).
    rewrite IH. simpl. by rewrite <- !(assoc_L (++)).
Qed.

Lemma StronglySorted_fmap_snd (ps : list mypair) :
  StronglySorted mag_le ps → StronglySorted Qle ps.*2.
Proof.
  induction 1 as [|p ps _ IH Hp]; simpl; constructor; [done|].
  rewrite Forall_fmap. exact Hp.
Qed.

Lemma sort_indexes_order (v : list Real) :
  sort_indexes [] v ≡ₚ seqZ 0 (Vec.size v)
  ∧ ∀ ms, mapM (Vec.get v) (sort_indexes [] v) = Some ms →
          StronglySorted Qle ms.
Proof.
  unfold sort_indexes. cbv zeta. rewrite app_nil_l.
  set (ps := std_sort comparator (imap (λ i x, (Z.of_nat i, x)) v)).
  split.
  - subst ps. rewrite std_sort_Permutation, fmap_imap.
    unfold seqZ, Vec.size. rewrite Nat2Z.id.
    rewrite <- (imap_seq_0 v (λ i, Z.of_nat i + 0)).
    apply reflexive_eq, imap_ext. intros i x _. simpl. lia.
  - intros ms Hms.
    assert (mapM (Vec.get v) ps.*1 = Some ps.*2) as Hps.
    { apply mapM_Some_2. apply Forall2_fmap.
      apply Forall_Forall2_diag, Forall_forall. intros [i m] Him.
      by apply sort_indexes_pairs. }
    pose proof (eq_trans (eq_sym Hms) Hps) as Heq. injection Heq as ->.
    apply StronglySorted_fmap_snd, std_sort_sorted.
Qed.

(** When the three peak vectors are aligned and the matching pass assigns
    nothing, the call is defined: it leaves the peaks as they are and
    appends all of them, in the order of [sort_indexes], to the resized
    output vectors. *)
Lemma sinusoidalTracking_unmatched
    peakMags peakFrequencies peakPhases tfreq o s tfn tmn tpn :
  length peakFrequencies = length peakMags →
  length peakPhases = length peakMags →
  (if 0 <? Vec.size (indexes_where (λ f, Qltb 0%Q f) 0 tfreq) then
     match_loop 20%Q (1 # 100)%Q peakFrequencies tfreq
       (sort_indexes [] peakMags) (replicate (length tfreq) (-1))
       (indexes_where (λ f, Qltb 0%Q f) 0 tfreq)
   else Some (replicate (length tfreq) (-1),
              indexes_where (λ f, Qltb 0%Q f) 0 tfreq))
  = Some (replicate (length tfreq) (-1),
          indexes_where (λ f, Qltb 0%Q f) 0 tfreq) →
  ∃ fs ms ps,
    mapM (Vec.get peakFrequencies) (sort_indexes [] peakMags) = Some fs
    ∧ mapM (Vec.get peakMags) (sort_indexes [] peakMags) = Some ms
    ∧ mapM (Vec.get peakPhases) (sort_indexes [] peakMags) = Some ps
    ∧ sinusoidalTracking peakMags peakFrequencies peakPhases tfreq o s
        tfn tmn tpn
      = Some (mkTriple peakFrequencies peakMags peakPhases,
              mkTriple (resize (length tfreq) 0%Q tfn ++ fs)
                       (resize (length tfreq) 0%Q tmn ++ ms)
                       (resize (length tfreq) 0%Q tpn ++ ps)).
Proof.
  intros HlenF HlenP Hmatch.
  destruct (proj2 (mapM_is_Some (Vec.get peakFrequencies)
                     (sort_indexes [] peakMags))) as [fs Hfs];
    [by apply sort_indexes_in_range|].
  destruct (proj2 (mapM_is_Some (Vec.get peakMags)
                     (sort_indexes [] peakMags))) as [ms Hms];
    [by apply sort_indexes_in_range|].
  destruct (proj2 (mapM_is_Some (Vec.get peakPhases)
                     (sort_indexes [] peakMags))) as [ps Hps];
    [by apply sort_indexes_in_range|].
  exists fs, ms, ps. split; [done|]. split; [done|]. split; [done|].
  unfold sinusoidalTracking. cbv zeta. rewrite Hmatch.
  cbn [mbind option_bind].
  rewrite indexes_where_none by (by apply Forall_replicate).
  change (0 <? Vec.size (@nil Z)) with false. cbn [mbind option_bind].
  change (emptyt_loop (S (length tfreq)) tfreq 0 []) with (Some (@nil Z)).
  cbn [mbind option_bind mag freq phase].
  change (Vec.size (@nil Z)) with 0.
  destruct (sort_indexes [] peakMags) as [|i order] eqn:Horder.
  - injection Hfs as <-. injection Hms as <-. injection Hps as <-.
    simpl. by rewrite !app_nil_r.
  - replace (Vec.size (i :: order) <=? 0) with false
      by (symmetry; apply Z.leb_gt; unfold Vec.size; simpl; lia).
    replace (0 <? Vec.size (i :: order)) with true
      by (symmetry; apply Z.ltb_lt; unfold Vec.size; simpl; lia).
    cbn [andb]. unfold range. rewrite Z.sub_0_r.
    change (seqZ 0 (0 - 0)) with (@nil Z). cbn [for_each mbind option_bind].
    pose proof (push_loop (mkTriple peakFrequencies peakMags peakPhases)
                  [] (i :: order)) as Hpush.
    change (Vec.size (@nil Z)) with 0 in Hpush. simpl app in Hpush.
    by erewrite Hpush by eassumption.
Qed.

(** X6.  When the three peak vectors are aligned and no peak has a
    tolerance [20 + 0.01 * frequency] above [1e10], the call is defined and
    does one thing only: it leaves the peaks as they are, assigns none of
    them to a slot, and appends all of them to the resized output vectors,
    each peak once, in an order of non-decreasing magnitude. *)
Theorem sinusoidalTracking_appends_every_peak
    peakMags peakFrequencies peakPhases tfreq o s tfn tmn tpn :
  length peakFrequencies = length peakMags →
  length peakPhases = length peakMags →
  Forall (λ pf, (20 + (1 # 100) * pf <= 10000000000 # 1)%Q) peakFrequencies →
  ∃ order fs ms ps,
    order ≡ₚ seqZ 0 (Vec.size peakMags)
    ∧ mapM (Vec.get peakFrequencies) order = Some fs
    ∧ mapM (Vec.get peakMags) order = Some ms
    ∧ mapM (Vec.get peakPhases) order = Some ps
    ∧ StronglySorted Qle ms
    ∧ sinusoidalTracking peakMags peakFrequencies peakPhases tfreq o s
        tfn tmn tpn
      = Some (mkTriple peakFrequencies peakMags peakPhases,
              mkTriple (resize (length tfreq) 0%Q tfn ++ fs)
                       (resize (length tfreq) 0%Q tmn ++ ms)
                       (resize (length tfreq) 0%Q tpn ++ ps)).
Proof.
  intros HlenF HlenP Htol.
  destruct (sinusoidalTracking_unmatched peakMags peakFrequencies peakPhases
              tfreq o s tfn tmn tpn HlenF HlenP)
    as (fs & ms & ps & Hfs & Hms & Hps & Hres).
  - destruct (0 <? Vec.size _); [|done].
    apply match_loop_assigns_nothing; [done| |].
    + by apply sort_indexes_in_range.
    + apply Forall_forall. intros t (x & Hx & _)%indexes_where_get. eauto.
  - destruct (sort_indexes_order peakMags) as [Hperm Hsorted].
    exists (sort_indexes [] peakMags), fs, ms, ps. eauto 10.
Qed.

Lemma sinusoidalTracking_appends_every_peak_witness :
  ∃ order fs ms ps,
    order ≡ₚ seqZ 0 (Vec.size [5%Q; 2%Q])
    ∧ mapM (Vec.get [300%Q; 900%Q]) order = Some fs
    ∧ mapM (Vec.get [5%Q; 2%Q]) order = Some ms
    ∧ mapM (Vec.get [1%Q; 2%Q]) order = Some ps
    ∧ StronglySorted Qle ms
    ∧ sinusoidalTracking [5%Q; 2%Q] [300%Q; 900%Q] [1%Q; 2%Q]
        [310%Q; 0%Q] 20%Q (1 # 100)%Q [] [] []
      = Some (mkTriple [300%Q; 900%Q] [5%Q; 2%Q] [1%Q; 2%Q],
              mkTriple (resize (length [310%Q; 0%Q]) 0%Q [] ++ fs)
                       (resize (length [310%Q; 0%Q]) 0%Q [] ++ ms)
                       (resize (length [310%Q; 0%Q]) 0%Q [] ++ ps)).
Proof.
  apply (sinusoidalTracking_appends_every_peak
           [5%Q; 2%Q] [300%Q; 900%Q] [1%Q; 2%Q] [310%Q; 0%Q]
           20%Q (1 # 100)%Q [] [] []).
  - reflexivity.
  - reflexivity.
  - repeat constructor; vm_compute; discriminate.
Defined.

(** ** Track continuation: a match, and a call with no defined result *)

(** A peak is assigned to a track only through a tolerance above [1e10]:
    here the peak at 2e12 Hz continues the track of slot 0 and is erased
    from the peak vectors; the other peak is appended. *)
Example tracking_with_a_match :
  sinusoidalTracking [1%Q; 2%Q] [2000000000000%Q; 2000000000001%Q]
    [0%Q; 0%Q] [2000000000000%Q] 20%Q (1 # 100)%Q [] [] []
  = Some (mkTriple [2000000000001%Q] [2%Q] [0%Q],
          mkTriple [2000000000000%Q; 2000000000001%Q] [1%Q; 2%Q]
                   [0%Q; 0%Q]).
Proof. reflexivity. Qed.

(** With two matches, the peaks 0 and 1 are erased one after the other at
    their original positions: the second erase is past the end of the
    vector, and the call has no defined result. *)
Example tracking_erase_past_the_end :
  sinusoidalTracking [1%Q; 2%Q] [2000000000000%Q; 2000000000001%Q]
    [0%Q; 0%Q] [2000000000000%Q; 2000000000000%Q] 20%Q (1 # 100)%Q [] [] []
  = None.
Proof. reflexivity. Qed.

(** ** Track continuation: claims *)

(** C1 (scenario C).  With the incoming track at 300 Hz and one current peak
    at 305 Hz (magnitude 3), the peak is not assigned to slot 0: slot 0 is
    left at the sentinel and the peak is appended as slot 1. *)
Theorem tracking_scenario_C :
  sinusoidalTracking [3%Q] [305%Q] [(1 # 2)%Q] [300%Q] 20%Q (1 # 100)%Q
    [] [] []
  = Some (mkTriple [305%Q] [3%Q] [(1 # 2)%Q],
          mkTriple [0%Q; 305%Q] [0%Q; 3%Q] [0%Q; (1 # 2)%Q]).
Proof. reflexivity. Qed.

(** C2 (scenario B).  With an all-zero incoming track array of length 4 and
    the peaks (300 Hz, mag 5) and (900 Hz, mag 2), slots 0 to 3 are all left
    at the sentinel and both peaks are appended, the smaller magnitude
    first. *)
Theorem tracking_scenario_B :
  sinusoidalTracking [5%Q; 2%Q] [300%Q; 900%Q] [1%Q; 2%Q]
    [0%Q; 0%Q; 0%Q; 0%Q] 20%Q (1 # 100)%Q [] [] []
  = Some (mkTriple [300%Q; 900%Q] [5%Q; 2%Q] [1%Q; 2%Q],
          mkTriple [0%Q; 0%Q; 0%Q; 0%Q; 900%Q; 300%Q]
                   [0%Q; 0%Q; 0%Q; 0%Q; 2%Q; 5%Q]
                   [0%Q; 0%Q; 0%Q; 0%Q; 2%Q; 1%Q]).
Proof. reflexivity. Qed.

(** C3.  On the magnitudes [5; 2] the index order computed for the matching
    pass is [1; 0], and on [2; 5] it is [0; 1]: the peak of smaller
    magnitude is listed before the peak of larger magnitude. *)
Theorem sort_indexes_smaller_magnitude_first :
  sort_indexes [] [5%Q; 2%Q] = [1; 0] ∧ sort_indexes [] [2%Q; 5%Q] = [0; 1].
Proof. split; reflexivity. Qed.

(** C6.  For every track-continuation call whose output vectors start empty,
    every frequency of the output track slot array is either the sentinel 0
    or the frequency of one of the current-frame peaks supplied to the
    call. *)
Theorem tracking_conservation
    peakMags peakFrequencies peakPhases tfreq o s pk tr :
  sinusoidalTracking peakMags peakFrequencies peakPhases tfreq o s [] [] []
    = Some (pk, tr) →
  Forall (λ f, f = 0%Q ∨ f ∈ peakFrequencies) (freq tr).
Proof.
  intros H. apply Forall_forall. revert H.
  apply (sinusoidalTracking_inv peakFrequencies
           (λ tr, ∀ f, f ∈ freq tr → f = 0%Q ∨ f ∈ peakFrequencies)).
  - intros tr0 d pk0 s0 tr' Hpk Htr Hst f Hf.
    destruct (store3_freq _ _ _ _ _ _ Hst Hf); auto.
  - intros tr0 pk0 s0 tr' Hpk Htr Hst f Hf.
    destruct (push3_freq _ _ _ _ _ Hst Hf); auto.
  - simpl. intros f Hf. rewrite resize_nil in Hf.
    apply elem_of_replicate in Hf as [-> _]. by left.
Qed.

Lemma tracking_conservation_witness :
  Forall (λ f, f = 0%Q ∨ f ∈ [300%Q; 900%Q]) [0%Q; 0%Q; 900%Q; 300%Q].
Proof.
  exact (tracking_conservation
           [5%Q; 2%Q] [300%Q; 900%Q] [1%Q; 2%Q] [0%Q; 0%Q] 20%Q (1 # 100)%Q
           (mkTriple [300%Q; 900%Q] [5%Q; 2%Q] [1%Q; 2%Q])
           (mkTriple [0%Q; 0%Q; 900%Q; 300%Q] [0%Q; 0%Q; 2%Q; 5%Q]
                     [0%Q; 0%Q; 2%Q; 1%Q])
           eq_refl).
Defined.

(** C7.  For every track-continuation call that returns, each of the three
    output track slot arrays is at least as long as the input track
    frequency array: the slots may grow, they never shrink. *)
Theorem tracking_slots_never_shrink
    peakMags peakFrequencies peakPhases tfreq o s tfn tmn tpn pk tr :
  sinusoidalTracking peakMags peakFrequencies peakPhases tfreq o s tfn tmn tpn
    = Some (pk, tr) →
  (length tfreq ≤ length (freq tr))%nat
  ∧ (length tfreq ≤ length (mag tr))%nat
  ∧ (length tfreq ≤ length (phase tr))%nat.
Proof.
  apply (sinusoidalTracking_inv peakFrequencies
           (λ tr, (length tfreq ≤ length (freq tr))%nat
                  ∧ (length tfreq ≤ length (mag tr))%nat
                  ∧ (length tfreq ≤ length (phase tr))%nat)).
  - intros tr0 d pk0 s0 tr' _ Hlen Hst.
    apply store3_length in Hst. lia.
  - intros tr0 pk0 s0 tr' _ Hlen Hst.
    apply push3_length in Hst. lia.
  - simpl. rewrite !length_resize. lia.
Qed.

Lemma tracking_slots_never_shrink_witness :
  (length [300%Q] ≤ length [0%Q; 305%Q])%nat
  ∧ (length [300%Q] ≤ length [0%Q; 3%Q])%nat
  ∧ (length [300%Q] ≤ length [0%Q; (1 # 2)%Q])%nat.
Proof.
  exact (tracking_slots_never_shrink
           [3%Q] [305%Q] [(1 # 2)%Q] [300%Q] 20%Q (1 # 100)%Q [] [] []
           (mkTriple [305%Q] [3%Q] [(1 # 2)%Q])
           (mkTriple [0%Q; 305%Q] [0%Q; 3%Q] [0%Q; (1 # 2)%Q])
           eq_refl).
Defined.

(** C10.  The outputs of the track continuator are the same for any two
    values of the arguments [freqDevOffset] and [freqDevSlope]: the function
    overwrites both on entry (with 20 and 0.01). *)
Theorem tracking_ignores_deviation_arguments
    peakMags peakFrequencies peakPhases tfreq tfn tmn tpn
    (freqDevOffset1 freqDevSlope1 freqDevOffset2 freqDevSlope2 : Real) :
  sinusoidalTracking peakMags peakFrequencies peakPhases tfreq
    freqDevOffset1 freqDevSlope1 tfn tmn tpn
  = sinusoidalTracking peakMags peakFrequencies peakPhases tfreq
      freqDevOffset2 freqDevSlope2 tfn tmn tpn.
Proof. reflexivity. Qed.

(** ** Phase interpolation: the loop as a map over the peaks *)

Lemma phase_loop sr fftphase (pf_done pf_rest out_done out_rest : list Real) :
  length out_done = length pf_done →
  length out_rest = length pf_rest →
  for_each (seqZ (Vec.size pf_done) (Vec.size pf_rest))
    (λ i peakPhases,
       f ← Vec.get (pf_done ++ pf_rest) i;
       v ← phase_of_peak fftphase sr f;
       Vec.set peakPhases i v)
    (out_done ++ out_rest)
  = (vs ← mapM (phase_of_peak fftphase sr) pf_rest; Some (out_done ++ vs)).
Proof.
  revert pf_done out_done out_rest.
  induction pf_rest as [|f pf_rest IH]; intros pf_done out_done out_rest Hd Hr.
  - destruct out_rest; [|done]. reflexivity.
  - destruct out_rest as [|o out_rest]; [done|].
    unfold Vec.size at 2. rewrite seqZ_cons by (simpl; lia).
    cbn [for_each]. rewrite Vec_get_app_r. cbn [mbind option_bind mapM].
    destruct (phase_of_peak fftphase sr f) as [v|]; [|done].
    cbn [mbind option_bind].
    replace (Vec.size pf_done) with (Vec.size out_done)
      by (unfold Vec.size; congruence).
    rewrite Vec_set_app_r. cbn [mbind option_bind].
    specialize (IH (pf_done ++ [f]) (out_done ++ [v]) out_rest).
    rewrite <- !(assoc_L (++)) in IH. simpl in IH.
    replace (Z.succ (Vec.size out_done)) with (Vec.size (pf_done ++ [f]))
      by (unfold Vec.size; rewrite length_app; simpl; lia).
    replace (Z.pred (Z.of_nat (length (f :: pf_rest)))) with (Vec.size pf_rest)
      by (unfold Vec.size; simpl; lia).
    rewrite IH.
    + destruct (mapM _ pf_rest); simpl; [|done].
      by rewrite <- (assoc_L (++)).
    + rewrite !length_app. simpl. lia.
    + simpl in Hr. lia.
Qed.

(** [phaseInterpolation] computes [phase_of_peak] for every peak, in order;
    the previous contents of [peakPhases] are overwritten. *)
Lemma phaseInterpolation_mapM sr fftphase peakFrequencies peakPhases :
  phaseInterpolation sr fftphase peakFrequencies peakPhases
  = mapM (phase_of_peak fftphase sr) peakFrequencies.
Proof.
  unfold phaseInterpolation, range. cbv zeta.
  pose proof (phase_loop sr fftphase [] peakFrequencies []
                (resize (Z.to_nat (Vec.size peakFrequencies)) 0%Q peakPhases))
    as H.
  simpl in H. rewrite Z.sub_0_r.
  change (Vec.size (@nil Real)) with 0 in H.
  etrans.
  - apply H; [done|]. rewrite length_resize. unfold Vec.size. lia.
  - by destruct (mapM _ peakFrequencies).
Qed.

Lemma phaseInterpolation_get sr fftphase peakFrequencies peakPhases out i f :
  phaseInterpolation sr fftphase peakFrequencies peakPhases = Some out →
  Vec.get peakFrequencies i = Some f →
  Vec.get out i = phase_of_peak fftphase sr f.
Proof.
  rewrite phaseInterpolation_mapM. intros H%mapM_Some_1 Hf.
  unfold Vec.get, Vec.in_range, Vec.size in *.
  rewrite <- (Forall2_length _ _ _ H).
  destruct (_ && _); [|done].
  destruct (Forall2_lookup_l _ _ _ _ _ H Hf) as (v & -> & ->). done.
Qed.

(** ** Phase interpolation: the bin position and the reads *)

(** A position that is exactly the integer [k ≥ 0] has nearest index [k]
    and interpolation factor 0. *)
Lemma bin_exact fftSize sr f k :
  0 ≤ k →
  (bin_pos fftSize sr f == inject_Z k)%Q →
  bin_idx fftSize sr f = k ∧ (bin_a fftSize sr f == 0)%Q.
Proof.
  intros Hk Hpos.
  assert (0 <= inject_Z k)%Q as Hk'
    by (change 0%Q with (inject_Z 0); rewrite <- Zle_Qle; lia).
  assert (bin_idx fftSize sr f = k) as Hidx.
  { unfold bin_idx. rewrite Qtrunc_nonneg.
    - apply Qfloor_unique; rewrite Hpos.
      + rewrite <- (Qplus_0_l (inject_Z k)) at 1.
        apply Qplus_le_l. done.
      + rewrite inject_Z_plus, (Qplus_comm (1 # 2)).
        apply Qplus_lt_r. done.
    - rewrite Hpos. apply Qle_trans with (inject_Z k); [done|].
      rewrite <- (Qplus_0_l (inject_Z k)) at 1.
      apply Qplus_le_l. done. }
  split; [done|]. unfold bin_a. rewrite Hidx, Hpos. ring.
Qed.

Lemma bin_pos_zero fftSize sr f :
  (f == 0)%Q → (bin_pos fftSize sr f == inject_Z 0)%Q.
Proof.
  intros Hf. unfold bin_pos. rewrite Hf. unfold Qdiv.
  change (inject_Z 0) with 0%Q. ring.
Qed.

(** The loop body returns a value exactly when every index it reads lies in
    [0, fftSize-1]. *)
Lemma phase_of_peak_defined fftphase sr f :
  is_Some (phase_of_peak fftphase sr f)
  ↔ Forall (λ i, 0 ≤ i < Vec.size fftphase)
           (phase_accesses (Vec.size fftphase) sr f).
Proof.
  unfold phase_of_peak, phase_accesses. cbv zeta.
  destruct (neighbour _ _ _) as [n|].
  - rewrite Forall_cons, Forall_singleton, <- !Vec_get_in_range. split.
    + intros [v Hv]. bind_inv Hv. eauto.
    + intros [[pn ->] [p ->]]. simpl. destruct (Qltb _ _); eauto.
  - by rewrite Forall_singleton, <- Vec_get_in_range.
Qed.

(** The guards keep the neighbour in range whenever [idx] itself is; every
    read of the loop body is in range exactly when [idx] is. *)
Lemma phase_accesses_in_range fftSize sr f :
  Forall (λ i, 0 ≤ i < fftSize) (phase_accesses fftSize sr f)
  ↔ 0 ≤ bin_idx fftSize sr f < fftSize.
Proof.
  unfold phase_accesses, neighbour. cbv zeta.
  destruct (Qltb _ _ && (0 <? _)) eqn:H1;
    [|destruct (_ <? fftSize - 1) eqn:H2];
    rewrite ?Forall_cons, ?Forall_nil; cbv beta.
  - apply andb_true_iff in H1 as [_ H1%Z.ltb_lt]. lia.
  - apply Z.ltb_lt in H2. clear H1. lia.
  - tauto.
Qed.


(** What the loop body returns when it has a neighbour [n] to read: the
    interpolated value when the phase difference exceeds [Real(M_PI)], the
    raw phase of bin [idx] otherwise. *)
Lemma phase_of_peak_neighbour fftphase sr f n pn p :
  let idx := bin_idx (Vec.size fftphase) sr f in
  let a := bin_a (Vec.size fftphase) sr f in
  neighbour (Vec.size fftphase) idx a = Some n →
  Vec.get fftphase n = Some pn →
  Vec.get fftphase idx = Some p →
  phase_of_peak fftphase sr f
  = Some (if Qltb Real_M_PI (Qabs (pn - p))
          then (a * pn + (1 - a) * p)%Q else p).
Proof.
  intros idx a Hn Hpn Hp. unfold phase_of_peak. cbv zeta.
  fold idx a. rewrite Hn, Hpn, Hp. simpl. by destruct (Qltb _ _).
Qed.

(** ** Phase interpolation: claims *)

(** C4.  With a phase array of length 4, [sampleRate = 8] and a peak at
    [sampleRate/2 = 4], the loop body reads [fftphase[4]], outside
    [0, fftSize-1], and the call has no defined result. *)
Theorem phase_read_past_last_bin :
  phase_accesses 4 8%Q 4%Q = [4]
  ∧ phaseInterpolation 8%Q [0%Q; 0%Q; 0%Q; 0%Q] [4%Q] [] = None.
Proof. split; reflexivity. Qed.

(** C5.  With the phase array [0; 4], [sampleRate = 8] and a peak at 1/2 Hz
    (position 1/4, nearest bin 0, neighbour bin 1), the phase difference 4
    exceeds pi and the output is the interpolated value 1, not the raw phase
    0 of bin 0; with the phase array [0; 1] the difference does not exceed
    pi and the output is the raw phase of bin 0. *)
Theorem phase_interpolates_across_wrap :
  bin_idx 2 8%Q (1 # 2)%Q = 0
  ∧ neighbour 2 0 (bin_a 2 8%Q (1 # 2)%Q) = Some 1
  ∧ Qltb Real_M_PI (Qabs (4 - 0)) = true
  ∧ (∃ v, phaseInterpolation 8%Q [0%Q; 4%Q] [(1 # 2)%Q] [] = Some [v]
          ∧ (v == 1)%Q ∧ ¬ (v == 0)%Q)
  ∧ Qltb Real_M_PI (Qabs (1 - 0)) = false
  ∧ phaseInterpolation 8%Q [0%Q; 1%Q] [(1 # 2)%Q] [] = Some [0%Q].
Proof.
  repeat split; try reflexivity.
  eexists. split; [reflexivity|]. split; [reflexivity|]. discriminate.
Qed.

Lemma phase_of_peak_boundary sr fftphase f bin :
  2 ≤ Vec.size fftphase →
  (bin = 0 ∧ (f == 0)%Q)
  ∨ (bin = Vec.size fftphase - 1
     ∧ (bin_pos (Vec.size fftphase) sr f == inject_Z bin)%Q) →
  ∃ v p,
    phase_of_peak fftphase sr f = Some v
    ∧ Vec.get fftphase bin = Some p
    ∧ (v == p)%Q.
Proof.
  intros Hsize Hbin.
  assert (0 ≤ bin ∧ (bin = 0 ∨ bin = Vec.size fftphase - 1)
          ∧ (bin_pos (Vec.size fftphase) sr f == inject_Z bin)%Q)
    as (Hbin0 & Hcase & Hpos).
  { destruct Hbin as [[-> Hf]|[-> Hp]].
    - split; [lia|]. split; [by left|]. by apply bin_pos_zero.
    - split; [lia|]. split; [by right|]. done. }
  destruct (bin_exact _ _ _ _ Hbin0 Hpos) as [Hidx Ha].
  destruct (proj2 (Vec_get_in_range fftphase bin)) as [p Hp]; [lia|].
  assert (∃ v, phase_of_peak fftphase sr f = Some v ∧ (v == p)%Q)
    as (v & Hv & Hvp).
  { unfold phase_of_peak. cbv zeta. rewrite Hidx. unfold neighbour.
    rewrite (Qltb_comp _ 0%Q 0%Q 0%Q Ha (Qeq_refl 0)).
    change (Qltb 0%Q 0%Q) with false. cbn [andb].
    destruct (bin <? Vec.size fftphase - 1) eqn:Hlt.
    - apply Z.ltb_lt in Hlt.
      destruct (proj2 (Vec_get_in_range fftphase (bin + 1))) as [pn Hpn];
        [lia|].
      rewrite Hpn, Hp. simpl. destruct (Qltb _ _).
      + eexists. split; [done|]. rewrite Ha. ring.
      + eexists. split; [done|]. reflexivity.
    - rewrite Hp. eexists. split; [done|]. reflexivity. }
  by exists v, p.
Qed.

Lemma mapM_Forall_Some {A B} (g : A → option B) (R : A → B → Prop) l :
  Forall (λ x, ∃ y, g x = Some y ∧ R x y) l →
  ∃ ys, mapM g l = Some ys ∧ Forall2 R l ys.
Proof.
  induction 1 as [|x l (y & Hy & Hxy) _ (ys & Hys & Hall)]; simpl.
  - by exists [].
  - rewrite Hy, Hys. simpl. exists (y :: ys). split; [done|].
    by constructor.
Qed.

(** C8.  For every phase array of length [fftSize ≥ 2] and positive sample
    rate: when every peak of the list has frequency 0, hence is at bin 0, or
    has a position of exactly [fftSize-1], the last bin, the phase
    interpolator returns, and the phase it returns for each peak is equal to
    the raw phase of that peak's bin.  For any other peak list, if the call
    returns, the entry of every peak at bin 0 or at the last bin is equal to
    the raw phase of that bin. *)
Theorem phase_boundary_bins sr (fftphase : list Real) :
  2 ≤ Vec.size fftphase →
  (0 < sr)%Q →
  let boundary (f : Real) (bin : Z) :=
    (bin = 0 ∧ (f == 0)%Q)
    ∨ (bin = Vec.size fftphase - 1
       ∧ (bin_pos (Vec.size fftphase) sr f == inject_Z bin)%Q) in
  (∀ peakFrequencies peakPhases,
     Forall (λ f, ∃ bin, boundary f bin) peakFrequencies →
     ∃ out,
       phaseInterpolation sr fftphase peakFrequencies peakPhases = Some out
       ∧ Forall2 (λ f v, ∃ bin p, boundary f bin
                                  ∧ Vec.get fftphase bin = Some p
                                  ∧ (v == p)%Q)
                 peakFrequencies out)
  ∧ (∀ peakFrequencies peakPhases out i f bin,
       boundary f bin →
       Vec.get peakFrequencies i = Some f →
       phaseInterpolation sr fftphase peakFrequencies peakPhases = Some out →
       ∃ v p, Vec.get out i = Some v
              ∧ Vec.get fftphase bin = Some p
              ∧ (v == p)%Q).
Proof.
  intros Hsize _ boundary. split.
  - intros peakFrequencies peakPhases Hall.
    rewrite phaseInterpolation_mapM. apply mapM_Forall_Some.
    eapply Forall_impl; [exact Hall|]. intros f [bin Hbin]. simpl.
    destruct (phase_of_peak_boundary sr fftphase f bin Hsize Hbin)
      as (v & p & Hv & Hp & Hvp).
    exists v. split; [done|]. by exists bin, p.
  - intros peakFrequencies peakPhases out i f bin Hbin Hf Hout.
    destruct (phase_of_peak_boundary sr fftphase f bin Hsize Hbin)
      as (v & p & Hv & Hp & Hvp).
    exists v, p. split; [|done].
    by rewrite (phaseInterpolation_get _ _ _ _ _ _ _ Hout Hf).
Qed.

Lemma phase_boundary_bins_witness :
  ∃ out,
    phaseInterpolation 8%Q [1%Q; 5%Q; 2%Q] [0%Q; (8 # 3)%Q; 0%Q] [9%Q]
      = Some out
    ∧ Forall2
        (λ f v, ∃ bin p,
           ((bin = 0 ∧ (f == 0)%Q)
            ∨ (bin = Vec.size [1%Q; 5%Q; 2%Q] - 1
               ∧ (bin_pos (Vec.size [1%Q; 5%Q; 2%Q]) 8%Q f
                  == inject_Z bin)%Q))
           ∧ Vec.get [1%Q; 5%Q; 2%Q] bin = Some p
           ∧ (v == p)%Q)
        [0%Q; (8 # 3)%Q; 0%Q] out.
Proof.
  apply (phase_boundary_bins 8%Q [1%Q; 5%Q; 2%Q]).
  - vm_compute. discriminate.
  - reflexivity.
  - repeat constructor.
    + exists 0. left. split; reflexivity.
    + exists 2. right. split; reflexivity.
    + exists 0. left. split; reflexivity.
Defined.

(** The call of the witness above, evaluated: the two peaks at bin 0 get a
    value equal to [fftphase[0] = 1], the peak at the last bin gets
    [fftphase[2] = 2]. *)
Example phase_boundary_bins_evaluated :
  ∃ v0 v1 v2,
    phaseInterpolation 8%Q [1%Q; 5%Q; 2%Q] [0%Q; (8 # 3)%Q; 0%Q] [9%Q]
      = Some [v0; v1; v2]
    ∧ (v0 == 1)%Q ∧ v1 = 2%Q ∧ (v2 == 1)%Q.
Proof. do 3 eexists. split; [reflexivity|]. by repeat split. Qed.

(** ** Configuration: claims *)

Lemma occurs_app c s1 s2 : occurs c (s1 +:+ s2) = occurs c s1 || occurs c s2.
Proof.
  induction s1 as [|c' s1 IH]; simpl; [done|]. by rewrite IH, orb_assoc.
Qed.

Lemma contains_occurs c msg s :
  contains msg s → occurs c s = true → occurs c msg = true.
Proof.
  intros (pre & post & ->) Hs. rewrite !occurs_app, Hs.
  by rewrite orb_true_r.
Qed.

(** C9, as stated, fails twice.  For the ordering mode ["Loudness"] the
    exception is raised with the message
    ["Unsupported ordering type: 'loudness'"], in which the supplied value
    ["Loudness"] does not occur.  And with a peak detection that rejects a
    malformed range, [configure] raises for the valid ordering mode
    ["frequency"] when the minimum frequency is above the maximum one: the
    collaborator's error propagates. *)
Lemma configure_message_is_lower_cased :
  let p := mkParameters 44100%Q 100 5000%Q 0%Q 0%Q "Loudness" in
  let q := mkParameters 44100%Q 100 5000%Q 6000%Q 0%Q "frequency" in
  ((configure range_checking_peakDetect p default_peakDetect).1
     = EssentiaException "Unsupported ordering type: 'loudness'"
   ∧ ¬ contains "Unsupported ordering type: 'loudness'" (orderBy p))
  ∧ (toLower (orderBy q) = "frequency"
     ∧ (configure range_checking_peakDetect q default_peakDetect).1
       = EssentiaException "malformed range").
Proof.
  split; [split|split]; try reflexivity.
  intros H. by apply (contains_occurs "L") in H.
Qed.

(** C9, amended.  Whatever the peak detection collaborator does in its own
    [configure]: when the lower-cased ordering mode is neither ["magnitude"]
    nor ["frequency"], [configure] raises, its message contains the
    lower-cased mode, the collaborator is not called and holds what it held.
    Otherwise [configure] is exactly the call of the collaborator's
    [configure] with interpolation on, the range [sampleRate/2], the other
    parameters as they are and ["magnitude"] mapped to the order
    ["amplitude"], ["frequency"] to the order ["position"]: it raises if and
    only if the collaborator does. *)
Theorem configure_ordering
    (peakDetect_configure :
       PeakDetection → PeakDetection → Outcome * PeakDetection)
    (p : Parameters) (pd : PeakDetection) :
  let o := toLower (orderBy p) in
  let args mode :=
    mkPeakDetection true (sampleRate p / 2)%Q (maxPeaks p)
      (minFrequency p) (maxFrequency p) (magnitudeThreshold p) mode in
  let raises (r : Outcome * PeakDetection) :=
    ∃ msg, r.1 = EssentiaException msg in
  (o ≠ "magnitude" ∧ o ≠ "frequency" →
     configure peakDetect_configure p pd
       = (EssentiaException ("Unsupported ordering type: '" +:+ o +:+ "'"),
          pd)
     ∧ contains ("Unsupported ordering type: '" +:+ o +:+ "'") o)
  ∧ (o = "magnitude" →
     configure peakDetect_configure p pd
       = peakDetect_configure (args "amplitude") pd)
  ∧ (o = "frequency" →
     configure peakDetect_configure p pd
       = peakDetect_configure (args "position") pd)
  ∧ (raises (configure peakDetect_configure p pd)
     ↔ (o ≠ "magnitude" ∧ o ≠ "frequency")
       ∨ (o = "magnitude"
          ∧ raises (peakDetect_configure (args "amplitude") pd))
       ∨ (o = "frequency"
          ∧ raises (peakDetect_configure (args "position") pd))).
Proof.
  intros o args raises. unfold configure. fold o.
  destruct (String.eqb_spec o "magnitude") as [Hm|Hm];
    [|destruct (String.eqb_spec o "frequency") as [Hf|Hf]]; cbv zeta.
  - split; [by intros [? _]|]. split; [done|].
    split; [rewrite Hm; intros [=]|].
    split; [intros Hr; right; left; by split|].
    intros [[? _]|[[_ Hr]|[Hf _]]]; [done|done|].
    rewrite Hm in Hf. discriminate.
  - split; [by intros [_ ?]|]. split; [done|]. split; [done|].
    split; [intros Hr; right; right; by split|].
    intros [[_ ?]|[[? _]|[_ Hr]]]; done.
  - split.
    { intros _. split; [done|].
      by exists "Unsupported ordering type: '", "'". }
    split; [done|]. split; [done|].
    split; [intros _; left; by split|].
    intros _. unfold raises. simpl. eauto.
Qed.

Lemma configure_ordering_witness :
  let p := mkParameters 44100%Q 100 5000%Q 0%Q 0%Q "Magnitude" in
  let pd := default_peakDetect in
  let o := toLower (orderBy p) in
  let args mode :=
    mkPeakDetection true (sampleRate p / 2)%Q (maxPeaks p)
      (minFrequency p) (maxFrequency p) (magnitudeThreshold p) mode in
  let raises (r : Outcome * PeakDetection) :=
    ∃ msg, r.1 = EssentiaException msg in
  (o ≠ "magnitude" ∧ o ≠ "frequency" →
     configure range_checking_peakDetect p pd
       = (EssentiaException ("Unsupported ordering type: '" +:+ o +:+ "'"),
          pd)
     ∧ contains ("Unsupported ordering type: '" +:+ o +:+ "'") o)
  ∧ (o = "magnitude" →
     configure range_checking_peakDetect p pd
       = range_checking_peakDetect (args "amplitude") pd)
  ∧ (o = "frequency" →
     configure range_checking_peakDetect p pd
       = range_checking_peakDetect (args "position") pd)
  ∧ (raises (configure range_checking_peakDetect p pd)
     ↔ (o ≠ "magnitude" ∧ o ≠ "frequency")
       ∨ (o = "magnitude"
          ∧ raises (range_checking_peakDetect (args "amplitude") pd))
       ∨ (o = "frequency"
          ∧ raises (range_checking_peakDetect (args "position") pd))).
Proof.
  exact (configure_ordering range_checking_peakDetect
           (mkParameters 44100%Q 100 5000%Q 0%Q 0%Q "Magnitude")
           default_peakDetect).
Defined.

(** * Further properties of the support functions *)

Lemma sort_indexes_keys (v : list Real) :
  (imap (λ i x, (Z.of_nat i, x)) v).*1 = seqZ 0 (Vec.size v).
Proof.
  rewrite fmap_imap. unfold seqZ, Vec.size. rewrite Nat2Z.id.
  rewrite <- (imap_seq_0 v (λ i, Z.of_nat i + 0)).
  apply imap_ext. intros i x _. simpl. lia.
Qed.

Lemma sort_indexes_values (v : list Real) :
  (imap (λ i x, (Z.of_nat i, x)) v).*2 = v.
Proof.
  rewrite fmap_imap. induction v as [|x v IH] using rev_ind; [done|].
  rewrite imap_app, IH. done.
Qed.

Lemma sort_indexes_appends_order (v : list Real) :
  length (sort_indexes [] v) = length v
  ∧ sort_indexes [] v ≡ₚ seqZ 0 (Vec.size v).
Proof.
  unfold sort_indexes. cbv zeta. rewrite app_nil_l. split.
  - rewrite length_fmap.
    rewrite (Permutation_length (std_sort_Permutation _ _)).
    apply length_imap.
  - by rewrite std_sort_Permutation, sort_indexes_keys.
Qed.

(** X1.  [sort_indexes] keeps the indexes already in [idx] and appends a
    permutation of [0, ..., v.size()-1]: every index of [v] exactly once. *)
Theorem sort_indexes_appends_permutation (idx : list Z) (v : list Real) :
  ∃ order,
    sort_indexes idx v = idx ++ order
    ∧ order ≡ₚ seqZ 0 (Vec.size v)
    ∧ length order = length v.
Proof.
  unfold sort_indexes. cbv zeta. eexists. split; [done|].
  split.
  - by rewrite std_sort_Permutation, sort_indexes_keys.
  - rewrite length_fmap.
    rewrite (Permutation_length (std_sort_Permutation _ _)).
    apply length_imap.
Qed.

(** X2.  Reading [v] at the indexes computed by [sort_indexes] is always
    defined and gives the values of [v] rearranged in non-decreasing
    order. *)
Theorem sort_indexes_sorts_ascending (v : list Real) :
  ∃ ms,
    mapM (Vec.get v) (sort_indexes [] v) = Some ms
    ∧ StronglySorted Qle ms
    ∧ ms ≡ₚ v.
Proof.
  unfold sort_indexes. cbv zeta. rewrite app_nil_l.
  set (ps := std_sort comparator (imap (λ i x, (Z.of_nat i, x)) v)).
  exists ps.*2. split; [|split].
  - apply mapM_Some_2. apply Forall2_fmap.
    apply Forall_Forall2_diag, Forall_forall. intros [i m] Him.
    by apply sort_indexes_pairs.
  - apply StronglySorted_fmap_snd, std_sort_sorted.
  - subst ps. by rewrite std_sort_Permutation, sort_indexes_values.
Qed.

Lemma copy_vector_from_indexes_mapM {A} (out v : list A) idx :
  copy_vector_from_indexes out v idx
  = (vs ← mapM (Vec.get v) idx; Some (out ++ vs)).
Proof.
  revert out. induction idx as [|i idx IH]; intros out; simpl.
  - by rewrite app_nil_r.
  - destruct (Vec.get v i) as [x|]; simpl; [|done].
    rewrite IH. unfold Vec.push_back.
    destruct (mapM _ idx); simpl; [|done]. by rewrite <- (assoc_L (++)).
Qed.

(** X3.  [copy_vector_from_indexes] is defined exactly when every index in
    [idx] lies within [v]; it then keeps [out] and appends one element per
    index, [v[idx[0]], v[idx[1]], ...], in that order. *)
Theorem copy_vector_from_indexes_spec {A} (out v : list A) (idx : list Z) :
  (is_Some (copy_vector_from_indexes out v idx)
     ↔ Forall (λ i, 0 ≤ i < Vec.size v) idx)
  ∧ ∀ r, copy_vector_from_indexes out v idx = Some r →
      ∃ vs, r = out ++ vs
            ∧ Forall2 (λ i x, Vec.get v i = Some x) idx vs.
Proof.
  rewrite copy_vector_from_indexes_mapM. split.
  - transitivity (is_Some (mapM (Vec.get v) idx)).
    + destruct (mapM _ idx); simpl; split; intros [? ?]; eauto; done.
    + rewrite mapM_is_Some. apply Forall_iff. intros i. simpl.
      apply Vec_get_in_range.
  - intros r Hr. bind_inv Hr. injection Hr as <-.
    eexists. split; [done|]. by apply mapM_Some_1.
Qed.

Lemma erase_vector_from_indexes_keeps {A} (v v' : list A) (idx : list Z) :
  erase_vector_from_indexes v idx = Some v' →
  v' `sublist_of` v ∧ length v = (length v' + length idx)%nat.
Proof.
  revert v. induction idx as [|i idx IH]; intros v H; simpl in H.
  - injection H as <-. split; [done|]. simpl. lia.
  - bind_inv H. destruct (IH _ H) as [Hsub Hlen].
    unfold Vec.erase in Hx. destruct (Vec.in_range v i) eqn:Hr; [|done].
    injection Hx as <-. unfold Vec.in_range, Vec.size in Hr.
    apply andb_true_iff in Hr as [Hr0%Z.leb_le Hr%Z.ltb_lt]. split.
    + etrans; [exact Hsub|]. apply sublist_delete.
    + rewrite length_delete in Hlen by (apply lookup_lt_is_Some; lia).
      simpl. lia.
Qed.

(** X4.  When [erase_vector_from_indexes] is defined, what is left is a
    subsequence of [v] (order kept, nothing added) that is shorter by one
    element per index. *)
Theorem erase_vector_from_indexes_sublist {A} (v v' : list A) (idx : list Z) :
  erase_vector_from_indexes v idx = Some v' →
  v' `sublist_of` v ∧ length v = (length v' + length idx)%nat.
Proof. apply erase_vector_from_indexes_keeps. Qed.

Lemma erase_vector_from_indexes_sublist_witness :
  [2%Q] `sublist_of` [1%Q; 2%Q; 3%Q]
  ∧ length [1%Q; 2%Q; 3%Q] = (length [2%Q] + length [0; 1])%nat.
Proof.
  exact (erase_vector_from_indexes_sublist
           [1%Q; 2%Q; 3%Q] [2%Q] [0; 1] eq_refl).
Defined.

Lemma delete_delete_le {A} (v : list A) (i j : nat) :
  (i ≤ j)%nat → delete j (delete i v) = delete i (delete (S j) v).
Proof.
  revert i j. induction v as [|x v IH]; intros [|i] [|j] Hij; simpl;
    try done; try lia.
  f_equal. apply IH. lia.
Qed.

(** X5.  The erases act one after the other on the shrinking vector: with
    two indexes [i ≤ j], the second erase removes the element that was at
    position [j+1] of the original vector, not the one at [j]. *)
Theorem erase_vector_from_indexes_shifts {A} (v : list A) (i j : Z) :
  0 ≤ i → i ≤ j → j + 1 < Vec.size v →
  erase_vector_from_indexes v [i; j]
  = Some (delete (Z.to_nat i) (delete (Z.to_nat (j + 1)) v)).
Proof.
  intros Hi Hij Hj. unfold Vec.size in Hj.
  assert (Vec.erase v i = Some (delete (Z.to_nat i) v)) as H1.
  { unfold Vec.erase, Vec.in_range, Vec.size.
    replace (0 <=? i) with true by (symmetry; apply Z.leb_le; lia).
    replace (i <? Z.of_nat (length v)) with true
      by (symmetry; apply Z.ltb_lt; lia).
    done. }
  assert (Vec.erase (delete (Z.to_nat i) v) j
          = Some (delete (Z.to_nat j) (delete (Z.to_nat i) v))) as H2.
  { unfold Vec.erase, Vec.in_range, Vec.size.
    rewrite length_delete by (apply lookup_lt_is_Some; lia).
    replace (0 <=? j) with true by (symmetry; apply Z.leb_le; lia).
    replace (j <? Z.of_nat (length v - 1)) with true
      by (symmetry; apply Z.ltb_lt; lia).
    done. }
  cbn [erase_vector_from_indexes]. rewrite H1. cbn [mbind option_bind].
  rewrite H2. cbn [mbind option_bind]. f_equal.
  rewrite delete_delete_le by lia. f_equal. f_equal. lia.
Qed.

Lemma erase_vector_from_indexes_shifts_witness :
  erase_vector_from_indexes [10%Q; 20%Q; 30%Q; 40%Q] [0; 1]
  = Some (delete (Z.to_nat 0) (delete (Z.to_nat (1 + 1))
            [10%Q; 20%Q; 30%Q; 40%Q])).
Proof.
  apply (erase_vector_from_indexes_shifts [10%Q; 20%Q; 30%Q; 40%Q] 0 1);
    vm_compute; congruence.
Defined.

(** * Further properties of the track continuation *)

Lemma push_loop_inv pk (pl : list Z) ixs tr tr' :
  for_each ixs (λ i tr, s ← Vec.get pl i; push3 tr pk s) tr = Some tr' →
  ∃ fs ms ps,
    tr' = mkTriple (freq tr ++ fs) (mag tr ++ ms) (phase tr ++ ps)
    ∧ length fs = length ixs ∧ length ms = length ixs
    ∧ length ps = length ixs
    ∧ Forall (λ f, f ∈ freq pk) fs.
Proof.
  revert tr. induction ixs as [|i ixs IH]; intros tr H; simpl in H.
  - injection H as <-. exists [], [], []. destruct tr. simpl.
    rewrite !app_nil_r. auto.
  - bind_inv H. bind_inv Hx. unfold push3 in Hx. bind_inv Hx.
    injection Hx as <-.
    destruct (IH _ H) as (fs & ms & ps & -> & Hf & Hm & Hp & Hin).
    simpl. unfold Vec.push_back. rewrite <- !(assoc_L (++)).
    eexists (_ :: fs), (_ :: ms), (_ :: ps). simpl.
    split; [done|]. repeat split; try congruence.
    constructor; [|done]. by eapply Vec_get_elem_of.
Qed.

Lemma store_loop_lengths (indext indexp : list Z) pk ixs tr tr' :
  for_each ixs
    (λ i tr, d ← Vec.get indext i; s ← Vec.get indexp i; store3 tr d pk s)
    tr = Some tr' →
  length (freq tr') = length (freq tr) ∧ length (mag tr') = length (mag tr)
  ∧ length (phase tr') = length (phase tr).
Proof.
  apply (for_each_inv
           (λ t, length (freq t) = length (freq tr)
                 ∧ length (mag t) = length (mag tr)
                 ∧ length (phase t) = length (phase tr))); [|done].
  intros i s1 s2 Hs1 Hb. bind_inv Hb. apply store3_length in Hb. lia.
Qed.

(** The three stages of [sinusoidalTracking]: the matching pass, the stores
    into the matched slots with the erases of the used peaks, and the final
    stage, which only appends: one new slot per peak that is left. *)
Lemma sinusoidalTracking_stages
    peakMags peakFrequencies peakPhases tfreq o s tfn tmn tpn pk tr :
  sinusoidalTracking peakMags peakFrequencies peakPhases tfreq o s tfn tmn tpn
    = Some (pk, tr) →
  ∃ nt it tr1 fs ms ps,
    (if 0 <? Vec.size (indexes_where (λ f, Qltb 0%Q f) 0 tfreq) then
       match_loop 20%Q (1 # 100)%Q peakFrequencies tfreq
         (sort_indexes [] peakMags) (replicate (length tfreq) (-1))
         (indexes_where (λ f, Qltb 0%Q f) 0 tfreq)
     else Some (replicate (length tfreq) (-1),
                indexes_where (λ f, Qltb 0%Q f) 0 tfreq))
    = Some (nt, it)
    ∧ ((pk = mkTriple peakFrequencies peakMags peakPhases
        ∧ tr1 = mkTriple (resize (length tfreq) 0%Q tfn)
                         (resize (length tfreq) 0%Q tmn)
                         (resize (length tfreq) 0%Q tpn))
       ∨ (∃ indexp,
            for_each (range 0 (Vec.size indexp))
              (λ i tr,
                 d ← Vec.get (indexes_where (λ t, negb (t =? -1)) 0 nt) i;
                 s ← Vec.get indexp i;
                 store3 tr d (mkTriple peakFrequencies peakMags peakPhases) s)
              (mkTriple (resize (length tfreq) 0%Q tfn)
                        (resize (length tfreq) 0%Q tmn)
                        (resize (length tfreq) 0%Q tpn))
            = Some tr1
            ∧ erase_vector_from_indexes peakFrequencies indexp
              = Some (freq pk)
            ∧ erase_vector_from_indexes peakMags indexp = Some (mag pk)
            ∧ erase_vector_from_indexes peakPhases indexp
              = Some (phase pk)))
    ∧ tr = mkTriple (freq tr1 ++ fs) (mag tr1 ++ ms) (phase tr1 ++ ps)
    ∧ length fs = length (mag pk) ∧ length ms = length (mag pk)
    ∧ length ps = length (mag pk)
    ∧ Forall (λ f, f ∈ freq pk) fs.
Proof.
  intros H. unfold sinusoidalTracking in H. cbv zeta in H.
  apply bind_Some in H as ([nt it] & Hm & H).
  apply bind_Some in H as ([pk1 tr1] & H1 & H).
  apply bind_Some in H as (emptyt & He & H).
  apply bind_Some in H as (tr2 & H2 & H).
  injection H as <- <-.
  change (emptyt_loop (S (length tfreq)) tfreq 0 []) with (Some (@nil Z)) in He.
  injection He as <-.
  assert (∃ fs ms ps,
            tr2 = mkTriple (freq tr1 ++ fs) (mag tr1 ++ ms) (phase tr1 ++ ps)
            ∧ length fs = length (mag pk1) ∧ length ms = length (mag pk1)
            ∧ length ps = length (mag pk1)
            ∧ Forall (λ f, f ∈ freq pk1) fs)
    as (fs & ms & ps & Htr & Hfs & Hms & Hps & Hin).
  { destruct (sort_indexes_appends_order (mag pk1)) as [Hlen _].
    change (Vec.size (@nil Z)) with 0 in H2.
    destruct (0 <? Vec.size (sort_indexes [] (mag pk1))) eqn:Hpos.
    - apply Z.ltb_lt in Hpos.
      replace (Vec.size (sort_indexes [] (mag pk1)) <=? 0) with false in H2
        by (symmetry; apply Z.leb_gt; lia).
      cbn [andb] in H2. unfold range at 1 in H2.
      change (seqZ 0 (0 - 0)) with (@nil Z) in H2.
      cbn [for_each mbind option_bind] in H2.
      apply push_loop_inv in H2 as (fs & ms & ps & -> & Hf & Hm' & Hp & Hin).
      unfold range in Hf, Hm', Hp. rewrite length_seqZ in Hf, Hm', Hp.
      unfold Vec.size in Hf, Hm', Hp.
      exists fs, ms, ps. repeat split; try done; lia.
    - cbn [andb] in H2. injection H2 as <-.
      apply Z.ltb_ge in Hpos. unfold Vec.size in Hpos.
      exists [], [], []. destruct tr1. simpl. rewrite !app_nil_r.
      repeat split; try done; lia. }
  exists nt, it, tr1, fs, ms, ps.
  split; [exact Hm|]. split; [|done].
  destruct (0 <? Vec.size _) in H1.
  - right. bind_inv H1. injection H1 as <- <-. simpl. eauto.
  - left. by injection H1 as <- <-.
Qed.

Lemma Vec_set_lookup_ne {A} (v v' : list A) i x (k : nat) :
  Vec.set v i x = Some v' → i ≠ Z.of_nat k → v' !! k = v !! k.
Proof.
  unfold Vec.set, Vec.in_range. destruct (0 <=? i) eqn:H0; [|done].
  destruct (i <? Vec.size v); [|done]. simpl. intros [= <-] Hne.
  apply Z.leb_le in H0. apply list_lookup_insert_ne. lia.
Qed.

Lemma store3_lookup_ne tr d pk s tr' (k : nat) :
  store3 tr d pk s = Some tr' → d ≠ Z.of_nat k →
  freq tr' !! k = freq tr !! k ∧ mag tr' !! k = mag tr !! k
  ∧ phase tr' !! k = phase tr !! k.
Proof.
  unfold store3. intros H Hne. bind_inv H. injection H as <-. simpl.
  repeat split; by eapply Vec_set_lookup_ne.
Qed.

(** The matching pass writes [newTracks] only at slots that are in
    [incomingTracks]. *)
Lemma match_loop_outside a b F tfreq magOrder nt it nt' it' (k : nat) :
  match_loop a b F tfreq magOrder nt it = Some (nt', it') →
  Z.of_nat k ∉ it → nt' !! k = nt !! k.
Proof.
  revert nt it. induction magOrder as [|i magOrder IH]; intros nt it H Hk;
    simpl in H.
  - by injection H as <- <-.
  - destruct (Vec.size it =? 0); [by injection H as <- <-|].
    apply bind_Some in H as ([fd c] & _ & H). bind_inv H.
    destruct (Qltb _ _); [|by eapply IH].
    bind_inv H. rename x0 into t, x1 into nt1, x2 into it1.
    rewrite (IH _ _ H).
    + eapply Vec_set_lookup_ne; [done|]. intros ->.
      apply Hk. by eapply Vec_get_elem_of.
    + intros Hin. apply Hk. by eapply Vec_erase_elem_of.
Qed.

(** A loop over the positions of a vector [l], whose body at position
    [size pre] takes the state from [P pre] to [P (pre ++ [x])], takes it
    from [P []] to [P l]. *)
Lemma for_each_over_vector {St A} (P : list A → St → Prop)
    (body : Z → St → option St) (l : list A) (st : St) :
  (∀ pre x rest st1, l = pre ++ x :: rest → P pre st1 →
     ∃ st2, body (Vec.size pre) st1 = Some st2 ∧ P (pre ++ [x]) st2) →
  P [] st →
  ∃ st', for_each (range 0 (Vec.size l)) body st = Some st' ∧ P l st'.
Proof.
  intros Hbody.
  enough (∀ rest pre st1, l = pre ++ rest → P pre st1 →
            ∃ st', for_each (seqZ (Vec.size pre) (Vec.size rest)) body st1
                   = Some st' ∧ P l st') as H.
  { intros Hst. unfold range. rewrite Z.sub_0_r. by apply (H l [] st). }
  induction rest as [|x rest IH]; intros pre st1 Hl Hst1.
  - rewrite app_nil_r in Hl. subst pre. by exists st1.
  - unfold Vec.size at 2. rewrite seqZ_cons by (simpl; lia).
    cbn [for_each].
    destruct (Hbody pre x rest st1 Hl Hst1) as (st2 & -> & Hst2).
    cbn [mbind option_bind].
    replace (Z.succ (Vec.size pre)) with (Vec.size (pre ++ [x]))
      by (unfold Vec.size; rewrite length_app; simpl; lia).
    replace (Z.pred (Z.of_nat (length (x :: rest)))) with (Vec.size rest)
      by (unfold Vec.size; simpl; lia).
    apply IH; [|done]. by rewrite <- (assoc_L (++)).
Qed.

(** X23.  When no incoming track still unmatched is farther than [1e10]
    from the peak, the search that the source calls "find closest peak to
    incoming track" returns its initial values, the distance [1e10] and the
    index 0, whatever the distances are: the track it proposes for the peak
    is the first one of [incomingTracks], not the closest one. *)
Theorem closest_track_keeps_initial_values
    (pfreqt tfreq : list Real) (incomingTracks : list Z) (i : Z) (pf : Real) :
  Vec.get pfreqt i = Some pf →
  Forall (λ t, ∃ tf, Vec.get tfreq t = Some tf
                     ∧ (Qabs (pf - tf) <= 10000000000 # 1)%Q)
         incomingTracks →
  closest_track pfreqt tfreq incomingTracks i
  = Some ((10000000000 # 1)%Q, 0).
Proof.
  intros Hpf Hit. unfold closest_track.
  destruct (for_each_over_vector
              (λ (_ : list Z) (st : Real * Z),
                 st = ((10000000000 # 1)%Q, 0))
              (λ k '(freqDistance, closestIdx),
                 pf ← Vec.get pfreqt i;
                 t ← Vec.get incomingTracks k;
                 tf ← Vec.get tfreq t;
                 if Qltb freqDistance (Qabs (pf - tf))
                 then Some (Qabs (pf - tf), k)
                 else Some (freqDistance, closestIdx))
              incomingTracks ((10000000000 # 1)%Q, 0))
    as (st & Hres & ->); [|done|done].
  intros pre t rest st1 Hl ->.
  rewrite Hpf, Hl, Vec_get_app_r. simpl.
  rewrite Forall_forall in Hit.
  destruct (Hit t) as (tf & Htf & Hle).
  { rewrite Hl. apply elem_of_app. right. left. }
  rewrite Htf. simpl. destruct (Qltb _ _) eqn:Hc; [|by eexists].
  apply Qltb_lt in Hc. by apply Qle_not_lt in Hle.
Qed.

Lemma closest_track_keeps_initial_values_witness :
  closest_track [305%Q] [300%Q; 0%Q; 310%Q] [2; 0] 0
  = Some ((10000000000 # 1)%Q, 0).
Proof.
  apply (closest_track_keeps_initial_values
           [305%Q] [300%Q; 0%Q; 310%Q] [2; 0] 0 305%Q).
  - reflexivity.
  - repeat constructor; eexists; (split; [reflexivity|]);
      vm_compute; discriminate.
Defined.

(** X7.  Whenever the call is defined, the three output vectors have the
    same length (they stay index-aligned), whatever the lengths of the
    vectors passed in as outputs. *)
Theorem tracking_outputs_aligned
    peakMags peakFrequencies peakPhases tfreq o s tfn tmn tpn pk tr :
  sinusoidalTracking peakMags peakFrequencies peakPhases tfreq o s tfn tmn tpn
    = Some (pk, tr) →
  length (freq tr) = length (mag tr) ∧ length (mag tr) = length (phase tr).
Proof.
  apply (sinusoidalTracking_inv peakFrequencies
           (λ tr, length (freq tr) = length (mag tr)
                  ∧ length (mag tr) = length (phase tr))).
  - intros tr0 d pk0 s0 tr' _ Hlen Hst. apply store3_length in Hst. lia.
  - intros tr0 pk0 s0 tr' _ Hlen Hst. apply push3_length in Hst. lia.
  - simpl. by rewrite !length_resize.
Qed.

Lemma tracking_outputs_aligned_witness :
  length [7%Q; 305%Q] = length [0%Q; 3%Q]
  ∧ length [0%Q; 3%Q] = length [0%Q; (1 # 2)%Q].
Proof.
  exact (tracking_outputs_aligned
           [3%Q] [305%Q] [(1 # 2)%Q] [300%Q] 20%Q (1 # 100)%Q
           [7%Q; 8%Q; 9%Q] [] []
           (mkTriple [305%Q] [3%Q] [(1 # 2)%Q])
           (mkTriple [7%Q; 305%Q] [0%Q; 3%Q] [0%Q; (1 # 2)%Q])
           eq_refl).
Defined.

(** X8.  Whenever the call is defined, the output has exactly one slot per
    incoming slot plus one appended slot per peak left after the matching
    pass: no peak that is left is ever placed into an existing slot. *)
Theorem tracking_output_length
    peakMags peakFrequencies peakPhases tfreq o s tfn tmn tpn pk tr :
  sinusoidalTracking peakMags peakFrequencies peakPhases tfreq o s tfn tmn tpn
    = Some (pk, tr) →
  length (freq tr) = (length tfreq + length (mag pk))%nat.
Proof.
  intros H.
  destruct (sinusoidalTracking_stages _ _ _ _ _ _ _ _ _ _ _ H)
    as (nt & it & tr1 & fs & ms & ps & _ & Hst & -> & Hfs & _).
  simpl. rewrite length_app, Hfs. f_equal.
  destruct Hst as [[_ ->]|(indexp & Hloop & _)].
  - simpl. apply length_resize.
  - apply store_loop_lengths in Hloop as [-> _]. simpl. apply length_resize.
Qed.

Lemma tracking_output_length_witness :
  length [0%Q; 0%Q; 900%Q; 300%Q] = (length [0%Q; 0%Q] + length [5%Q; 2%Q])%nat.
Proof.
  exact (tracking_output_length
           [5%Q; 2%Q] [300%Q; 900%Q] [1%Q; 2%Q] [0%Q; 0%Q] 20%Q (1 # 100)%Q
           [] [] []
           (mkTriple [300%Q; 900%Q] [5%Q; 2%Q] [1%Q; 2%Q])
           (mkTriple [0%Q; 0%Q; 900%Q; 300%Q] [0%Q; 0%Q; 2%Q; 5%Q]
                     [0%Q; 0%Q; 2%Q; 1%Q])
           eq_refl).
Defined.

(** X9.  The call only ever erases from the peak vectors passed by
    reference: when it is defined, each of them is left as a subsequence of
    what was passed in, and the three have lost the same number of
    elements. *)
Theorem tracking_peaks_only_erased
    peakMags peakFrequencies peakPhases tfreq o s tfn tmn tpn pk tr :
  sinusoidalTracking peakMags peakFrequencies peakPhases tfreq o s tfn tmn tpn
    = Some (pk, tr) →
  freq pk `sublist_of` peakFrequencies
  ∧ mag pk `sublist_of` peakMags
  ∧ phase pk `sublist_of` peakPhases
  ∧ ∃ n, length peakFrequencies = (length (freq pk) + n)%nat
         ∧ length peakMags = (length (mag pk) + n)%nat
         ∧ length peakPhases = (length (phase pk) + n)%nat.
Proof.
  intros H.
  destruct (sinusoidalTracking_stages _ _ _ _ _ _ _ _ _ _ _ H)
    as (nt & it & tr1 & fs & ms & ps & _ & Hst & _).
  destruct Hst as [[-> _]|(indexp & _ & Hf & Hm & Hp)].
  - simpl. repeat split; try done. exists 0%nat. lia.
  - apply erase_vector_from_indexes_keeps in Hf as [? ?].
    apply erase_vector_from_indexes_keeps in Hm as [? ?].
    apply erase_vector_from_indexes_keeps in Hp as [? ?].
    repeat split; try done. by exists (length indexp).
Qed.

Lemma tracking_peaks_only_erased_witness :
  [2000000000001%Q] `sublist_of` [2000000000000%Q; 2000000000001%Q]
  ∧ [2%Q] `sublist_of` [1%Q; 2%Q]
  ∧ [0%Q] `sublist_of` [0%Q; 0%Q]
  ∧ ∃ n, length [2000000000000%Q; 2000000000001%Q]
           = (length [2000000000001%Q] + n)%nat
         ∧ length [1%Q; 2%Q] = (length [2%Q] + n)%nat
         ∧ length [0%Q; 0%Q] = (length [0%Q] + n)%nat.
Proof.
  exact (tracking_peaks_only_erased
           [1%Q; 2%Q] [2000000000000%Q; 2000000000001%Q] [0%Q; 0%Q]
           [2000000000000%Q] 20%Q (1 # 100)%Q [] [] []
           (mkTriple [2000000000001%Q] [2%Q] [0%Q])
           (mkTriple [2000000000000%Q; 2000000000001%Q] [1%Q; 2%Q]
                     [0%Q; 0%Q])
           eq_refl).
Defined.

(** X10.  When no incoming slot has a positive frequency and the three peak
    vectors are aligned, the matching pass is skipped and the call is
    defined: the peaks are left as they are and all of them are appended
    after the incoming slots, each peak once, in an order of non-decreasing
    magnitude. *)
Theorem tracking_without_incoming_tracks
    peakMags peakFrequencies peakPhases tfreq o s tfn tmn tpn :
  length peakFrequencies = length peakMags →
  length peakPhases = length peakMags →
  Forall (λ tf, (tf <= 0)%Q) tfreq →
  ∃ order fs ms ps,
    order ≡ₚ seqZ 0 (Vec.size peakMags)
    ∧ mapM (Vec.get peakFrequencies) order = Some fs
    ∧ mapM (Vec.get peakMags) order = Some ms
    ∧ mapM (Vec.get peakPhases) order = Some ps
    ∧ StronglySorted Qle ms
    ∧ sinusoidalTracking peakMags peakFrequencies peakPhases tfreq o s
        tfn tmn tpn
      = Some (mkTriple peakFrequencies peakMags peakPhases,
              mkTriple (resize (length tfreq) 0%Q tfn ++ fs)
                       (resize (length tfreq) 0%Q tmn ++ ms)
                       (resize (length tfreq) 0%Q tpn ++ ps)).
Proof.
  intros HlenF HlenP Htf.
  destruct (sinusoidalTracking_unmatched peakMags peakFrequencies peakPhases
              tfreq o s tfn tmn tpn HlenF HlenP)
    as (fs & ms & ps & Hfs & Hms & Hps & Hres).
  - rewrite (indexes_where_none (λ f, Qltb 0%Q f) tfreq); [done|].
    eapply Forall_impl; [exact Htf|]. intros tf Hle. simpl.
    destruct (Qltb 0%Q tf) eqn:Hc; [|done].
    apply Qltb_lt in Hc. by apply Qle_not_lt in Hle.
  - destruct (sort_indexes_order peakMags) as [Hperm Hsorted].
    exists (sort_indexes [] peakMags), fs, ms, ps. eauto 10.
Qed.

Lemma tracking_without_incoming_tracks_witness :
  ∃ order fs ms ps,
    order ≡ₚ seqZ 0 (Vec.size [5%Q])
    ∧ mapM (Vec.get [2000000000000%Q]) order = Some fs
    ∧ mapM (Vec.get [5%Q]) order = Some ms
    ∧ mapM (Vec.get [1%Q]) order = Some ps
    ∧ StronglySorted Qle ms
    ∧ sinusoidalTracking [5%Q] [2000000000000%Q] [1%Q]
        [0%Q; 0%Q] 20%Q (1 # 100)%Q [] [] []
      = Some (mkTriple [2000000000000%Q] [5%Q] [1%Q],
              mkTriple (resize (length [0%Q; 0%Q]) 0%Q [] ++ fs)
                       (resize (length [0%Q; 0%Q]) 0%Q [] ++ ms)
                       (resize (length [0%Q; 0%Q]) 0%Q [] ++ ps)).
Proof.
  apply (tracking_without_incoming_tracks
           [5%Q] [2000000000000%Q] [1%Q] [0%Q; 0%Q]
           20%Q (1 # 100)%Q [] [] []).
  - reflexivity.
  - reflexivity.
  - repeat constructor; vm_compute; discriminate.
Defined.

(** X11.  With no current peaks the call is defined for every incoming track
    array: nothing is appended and every output vector is the vector passed
    in, cut or zero-filled to [tfreq.size()]; all slots are at the sentinel
    when the output vectors start empty. *)
Theorem tracking_without_peaks (tfreq : list Real) o s tfn tmn tpn :
  sinusoidalTracking [] [] [] tfreq o s tfn tmn tpn
  = Some (mkTriple [] [] [],
          mkTriple (resize (length tfreq) 0%Q tfn)
                   (resize (length tfreq) 0%Q tmn)
                   (resize (length tfreq) 0%Q tpn))
  ∧ sinusoidalTracking [] [] [] tfreq o s [] [] []
    = Some (mkTriple [] [] [],
            mkTriple (replicate (length tfreq) 0%Q)
                     (replicate (length tfreq) 0%Q)
                     (replicate (length tfreq) 0%Q)).
Proof.
  assert (∀ tfn tmn tpn,
            sinusoidalTracking [] [] [] tfreq o s tfn tmn tpn
            = Some (mkTriple [] [] [],
                    mkTriple (resize (length tfreq) 0%Q tfn)
                             (resize (length tfreq) 0%Q tmn)
                             (resize (length tfreq) 0%Q tpn))) as H.
  { intros a b c.
    destruct (sinusoidalTracking_unmatched [] [] [] tfreq o s a b c)
      as (fs & ms & ps & Hfs & Hms & Hps & ->); [done|done| |].
    - by destruct (0 <? Vec.size _).
    - injection Hfs as <-. injection Hms as <-. injection Hps as <-.
      by rewrite !app_nil_r. }
  split; [apply H|]. rewrite H. by rewrite !resize_nil.
Qed.

(** X12.  A slot whose incoming frequency is not positive (an empty slot)
    is never written: whenever the call is defined, the three outputs hold
    at that slot what the resized output vectors held there, which is 0
    when the output vectors start empty. *)
Theorem tracking_empty_slot_never_filled
    peakMags peakFrequencies peakPhases tfreq o s tfn tmn tpn pk tr
    (k : nat) (tf : Real) :
  sinusoidalTracking peakMags peakFrequencies peakPhases tfreq o s tfn tmn tpn
    = Some (pk, tr) →
  tfreq !! k = Some tf →
  (tf <= 0)%Q →
  freq tr !! k = resize (length tfreq) 0%Q tfn !! k
  ∧ mag tr !! k = resize (length tfreq) 0%Q tmn !! k
  ∧ phase tr !! k = resize (length tfreq) 0%Q tpn !! k.
Proof.
  intros H Hk Htf.
  pose proof (lookup_lt_Some _ _ _ Hk) as Hlt.
  destruct (sinusoidalTracking_stages _ _ _ _ _ _ _ _ _ _ _ H)
    as (nt & it & tr1 & fs & ms & ps & Hm & Hst & -> & _).
  assert (Z.of_nat k ∉ indexes_where (λ f, Qltb 0%Q f) 0 tfreq) as Hnotin.
  { intros (x & Hx & _ & Hp)%indexes_where_elem.
    rewrite Z.sub_0_r, Nat2Z.id, Hk in Hx. injection Hx as <-.
    apply Qltb_lt in Hp. by apply Qle_not_lt in Htf. }
  assert (nt !! k = Some (-1)) as Hnt.
  { destruct (0 <? Vec.size _) in Hm.
    - rewrite (match_loop_outside _ _ _ _ _ _ _ _ _ _ Hm Hnotin).
      by apply lookup_replicate_2.
    - injection Hm as <- <-. by apply lookup_replicate_2. }
  assert (Z.of_nat k ∉ indexes_where (λ t, negb (t =? -1)) 0 nt) as Hnotin'.
  { intros (x & Hx & _ & Hp)%indexes_where_elem.
    rewrite Z.sub_0_r, Nat2Z.id, Hnt in Hx. by injection Hx as <-. }
  assert (freq tr1 !! k = resize (length tfreq) 0%Q tfn !! k
          ∧ mag tr1 !! k = resize (length tfreq) 0%Q tmn !! k
          ∧ phase tr1 !! k = resize (length tfreq) 0%Q tpn !! k)
    as (Hf & Hg & Hp).
  { destruct Hst as [[_ ->]|(indexp & Hloop & _)]; [done|].
    revert Hloop.
    apply (for_each_inv
             (λ t, freq t !! k = resize (length tfreq) 0%Q tfn !! k
                   ∧ mag t !! k = resize (length tfreq) 0%Q tmn !! k
                   ∧ phase t !! k = resize (length tfreq) 0%Q tpn !! k));
      [|done].
    intros i s1 s2 Hs1 Hb. bind_inv Hb.
    eapply store3_lookup_ne in Hb as (-> & -> & ->); [done|].
    intros ->. apply Hnotin'. by eapply Vec_get_elem_of. }
  simpl. rewrite <- Hf, <- Hg, <- Hp.
  assert (∀ (l : list Real) n, length l = n → (k < n)%nat →
            ∀ l', (l ++ l') !! k = l !! k) as Happ
    by (intros l n <- ? l'; by apply lookup_app_l).
  assert (length (freq tr1) = length tfreq
          ∧ length (mag tr1) = length tfreq
          ∧ length (phase tr1) = length tfreq) as (L1 & L2 & L3).
  { destruct Hst as [[_ ->]|(indexp & Hloop & _)].
    - simpl. by rewrite !length_resize.
    - apply store_loop_lengths in Hloop as (-> & -> & ->). simpl.
      by rewrite !length_resize. }
  rewrite (Happ _ _ L1 Hlt), (Happ _ _ L2 Hlt), (Happ _ _ L3 Hlt). done.
Qed.

Lemma tracking_empty_slot_never_filled_witness :
  [0%Q; 0%Q; 900%Q; 300%Q] !! 1%nat = resize (length [0%Q; 0%Q]) 0%Q [] !! 1%nat
  ∧ [0%Q; 0%Q; 2%Q; 5%Q] !! 1%nat = resize (length [0%Q; 0%Q]) 0%Q [] !! 1%nat
  ∧ [0%Q; 0%Q; 2%Q; 1%Q] !! 1%nat = resize (length [0%Q; 0%Q]) 0%Q [] !! 1%nat.
Proof.
  apply (tracking_empty_slot_never_filled
           [5%Q; 2%Q] [300%Q; 900%Q] [1%Q; 2%Q] [0%Q; 0%Q] 20%Q (1 # 100)%Q
           [] [] []
           (mkTriple [300%Q; 900%Q] [5%Q; 2%Q] [1%Q; 2%Q])
           (mkTriple [0%Q; 0%Q; 900%Q; 300%Q] [0%Q; 0%Q; 2%Q; 5%Q]
                     [0%Q; 0%Q; 2%Q; 1%Q])
           1%nat 0%Q).
  - reflexivity.
  - reflexivity.
  - vm_compute. discriminate.
Defined.

(** * Further properties of the phase interpolation *)

(** X13.  Whenever [phaseInterpolation] is defined, it returns exactly one
    phase per peak frequency, whatever the length of the phase vector it
    was given to fill. *)
Theorem phaseInterpolation_one_phase_per_peak
    sr fftphase peakFrequencies peakPhases out :
  phaseInterpolation sr fftphase peakFrequencies peakPhases = Some out →
  length out = length peakFrequencies.
Proof.
  rewrite phaseInterpolation_mapM. intros H. symmetry.
  by eapply length_mapM.
Qed.

Lemma phaseInterpolation_one_phase_per_peak_witness :
  length [0%Q; 2%Q] = length [0%Q; 2%Q].
Proof.
  exact (phaseInterpolation_one_phase_per_peak
           8%Q [0%Q; 1%Q; 2%Q; 1%Q] [0%Q; 2%Q] [9%Q; 9%Q; 9%Q] [0%Q; 2%Q]
           eq_refl).
Defined.

(** X14.  The result of [phaseInterpolation] does not depend on what the
    output vector held on entry: every entry is overwritten. *)
Theorem phaseInterpolation_overwrites
    sr fftphase peakFrequencies (peakPhases1 peakPhases2 : list Real) :
  phaseInterpolation sr fftphase peakFrequencies peakPhases1
  = phaseInterpolation sr fftphase peakFrequencies peakPhases2.
Proof. by rewrite !phaseInterpolation_mapM. Qed.

(** X15.  With an empty phase array and at least one peak,
    [phaseInterpolation] has no defined result: whatever the frequency and
    the sample rate, the loop body reads [fftphase[idx]] and no index lies
    inside an empty array. *)
Theorem phaseInterpolation_empty_spectrum
    sr (f : Real) (peakFrequencies peakPhases : list Real) :
  phaseInterpolation sr [] (f :: peakFrequencies) peakPhases = None.
Proof.
  rewrite phaseInterpolation_mapM. apply mapM_None. left.
  apply eq_None_not_Some. intros Hs.
  apply phase_of_peak_defined, phase_accesses_in_range in Hs.
  change (Vec.size (@nil Real)) with 0 in Hs. lia.
Qed.



(** X17.  A peak whose position is exactly an integer bin [k] of the array
    gets a phase equal to the raw phase of that bin, on whichever branch
    the loop body runs: the interpolation factor is 0. *)
Theorem phase_on_a_bin sr fftphase f (k : Z) :
  0 ≤ k < Vec.size fftphase →
  (bin_pos (Vec.size fftphase) sr f == inject_Z k)%Q →
  ∃ v p,
    phase_of_peak fftphase sr f = Some v
    ∧ Vec.get fftphase k = Some p
    ∧ (v == p)%Q.
Proof.
  intros Hk Hpos.
  destruct (bin_exact _ _ _ _ (proj1 Hk) Hpos) as [Hidx Ha].
  destruct (proj2 (Vec_get_in_range fftphase k) Hk) as [p Hp].
  unfold phase_of_peak. cbv zeta. rewrite Hidx.
  destruct (neighbour _ _ _) as [n|] eqn:Hn.
  - assert (0 ≤ n < Vec.size fftphase) as Hnr.
    { unfold neighbour in Hn.
      destruct (Qltb _ _ && (0 <? k)) eqn:H1.
      - apply andb_true_iff in H1 as [_ H1%Z.ltb_lt].
        injection Hn as <-. lia.
      - destruct (k <? Vec.size fftphase - 1) eqn:H2; [|done].
        apply Z.ltb_lt in H2. injection Hn as <-. lia. }
    destruct (proj2 (Vec_get_in_range fftphase n) Hnr) as [pn Hpn].
    rewrite Hpn, Hp. simpl. destruct (Qltb _ _).
    + eexists _, p. split; [done|]. split; [done|]. rewrite Ha. ring.
    + exists p, p. split; [done|]. split; [done|]. reflexivity.
  - rewrite Hp. exists p, p. split; [done|]. split; [done|]. reflexivity.
Qed.

Lemma phase_on_a_bin_witness :
  ∃ v p,
    phase_of_peak [0%Q; 5%Q; 1%Q; 2%Q] 8%Q 1%Q = Some v
    ∧ Vec.get [0%Q; 5%Q; 1%Q; 2%Q] 1 = Some p
    ∧ (v == p)%Q.
Proof.
  apply (phase_on_a_bin 8%Q [0%Q; 5%Q; 1%Q; 2%Q] 1%Q 1).
  - vm_compute. split; [discriminate|reflexivity].
  - reflexivity.
Defined.


(** * Further properties of the frame analysis *)


